(** * knavigator task engine: registry, task factory, driver and CheckPod

    A shallow embedding of [pkg/engine/engine.go] and of the CheckPod task
    (the file that declares [CheckPodTask]), followed by the properties of the
    engine that the specification states about them.

    Conventions of the embedding:
    - a Go [error] is a value of [error]; the [nil] error is [None];
    - a function returning [(T, error)] returns [result T];
    - Go maps are [gmap]s; a lookup [m[k]] of a missing key yields the zero
      value of the element type, which is written out where the code relies
      on it;
    - calls to the cluster API and to the informer library are recorded, in
      program order, in a list of [Call]s that every effectful function
      returns next to its result. *)

From Stdlib Require Import ZArith.
From stdpp Require Import gmap strings list fin_maps.

Open Scope string_scope.
Open Scope list_scope.

(** ** Errors *)

(** One constructor per [fmt.Errorf] site of the two source files, carrying
    the arguments of the format string; the two errors of package [context];
    and [ErrOther] for an error produced by a collaborator and passed on
    unchanged. *)
Inductive error : Type :=
  | ErrClientNotSet (ty id : string)
  | ErrParseParams (tid cause : string)
  | ErrMissingRefTaskId (tid : string)
  | ErrMissingStatusLabels (tid : string)
  | ErrGetPod (tid name cause : string)
  | ErrPodStatus (tid name status expected : string)
  | ErrListPods (tid cause : string)
  | ErrGetNode (tid node pod cause : string)
  | ErrNodeLabel (tid pod node key val : string)
  | ErrUnexpectedType (tid tyname : string)
  | ErrUnreferenced (tid ref : string)
  | ErrUnsupportedType (ty : string)
  | ErrDuplicateID (taskID : string)
  | ErrMissingID (taskID : string)
  | ErrDeadlineExceeded
  | ErrCanceled
  | ErrOther (msg : string).

#[global] Instance error_eq_dec : EqDecision error.
Proof. solve_decision. Defined.

Inductive result (A : Type) : Type :=
  | Ok (a : A)
  | Err (e : error).
Arguments Ok {A} a.
Arguments Err {A} e.

Definition is_ok {A} (r : result A) : bool :=
  match r with Ok _ => true | Err _ => false end.

(** ** Cluster objects and the typed client *)

(** [v1.PodPhase] is a string type; [v1.PodRunning] is the constant below. *)
Definition PodRunning : string := "Running".

(** The fields of [v1.Pod] and [v1.Node] that the engine reads. *)
Record Pod : Type := mkPod {
  pod_Name : string;
  pod_Phase : string;
  pod_NodeName : string;
}.

Record Node : Type := mkNode {
  node_Name : string;
  node_Labels : gmap string string;
}.

(** What an informer handler receives as [obj interface{}]: a [*v1.Pod], or a
    value of another dynamic type, of which only the type name is kept. *)
Inductive Obj : Type :=
  | ObjPod (p : Pod)
  | ObjOther (tyname : string).

(** The three operations of [*kubernetes.Clientset] the engine invokes. A
    failed request answers [inl cause], the text of the underlying error. *)
Record Clientset : Type := mkClientset {
  Pods_Get : string → string → string + Pod;
  Pods_List : string → string + list Pod;
  Nodes_Get : string → string + Node;
}.

(** Requests and library calls, in the order they are issued. *)
Inductive Call : Type :=
  | CallPodsGet (ns name : string)
  | CallPodsList (ns : string)
  | CallNodesGet (name : string)
  | CallWithTimeout (d : Z)
  | CallNewInformerFactory (resync : Z) (ns : string)
  | CallAddEventHandler
  | CallInformerRun
  | CallFactoryShutdown
  | CallCancel.

#[global] Instance Call_eq_dec : EqDecision Call.
Proof. solve_decision. Defined.

(** Effectful code: a result together with the calls it made. *)
Definition M (A : Type) : Type := result A * list Call.

Definition emit (c : Call) : M unit := (Ok tt, [c]).
Definition fail {A} (e : error) : M A := (Err e, []).

#[global] Instance M_ret : MRet M := λ A a, (Ok a, []).
#[global] Instance M_bind : MBind M := λ A B k m,
  match m with
  | (Ok a, t) => let '(r, t') := k a in (r, t ++ t')
  | (Err e, t) => (Err e, t)
  end.

(** A Go function that returns only [error]. *)
Definition to_error (m : M unit) : option error * list Call :=
  match m with
  | (Ok _, t) => (None, t)
  | (Err e, t) => (Some e, t)
  end.

(** ** The object registry *)

(** Modelled from the spec: the declaration of [ObjInfo] is not among the
    sources; the spec gives its fields as the resource class, the namespace,
    the produced object names and the expected pod names. *)
Record GVR : Type := mkGVR { gvr_Group : string; gvr_Version : string; gvr_Resource : string }.

Record ObjInfo : Type := mkObjInfo {
  info_GVR : GVR;
  info_Namespace : string;
  info_Names : list string;
  info_Pods : list string;
}.

(** [Eng]: the typed client may be a nil pointer; [objMap] is the registry.
    The logger, the mutex and the dynamic client take no part below. *)
Record Eng : Type := mkEng {
  k8sClient : option Clientset;
  objMap : gmap string ObjInfo;
}.

Definition set_objMap (eng : Eng) (m : gmap string ObjInfo) : Eng :=
  {| k8sClient := k8sClient eng; objMap := m |}.

(** [Eng.SetObjInfo] *)
Definition SetObjInfo (eng : Eng) (taskID : string) (info : ObjInfo) : option error * Eng :=
  match objMap eng !! taskID with
  | Some _ => (Some (ErrDuplicateID taskID), eng)
  | None => (None, set_objMap eng (<[taskID := info]> (objMap eng)))
  end.

(** [Eng.GetObjInfo] *)
Definition GetObjInfo (eng : Eng) (taskID : string) : result ObjInfo :=
  match objMap eng !! taskID with
  | None => Err (ErrMissingID taskID)
  | Some info => Ok info
  end.

(** ** Task descriptors *)

(** [config.Task], with the parameter map [map[string]interface{}] left as a
    type parameter: only the YAML decoder looks inside it. *)
Record Task (P : Type) : Type := mkTask {
  cfg_Type : string;
  cfg_ID : string;
  cfg_Params : P;
}.
Arguments mkTask {P} _ _ _.
Arguments cfg_Type {P} _.
Arguments cfg_ID {P} _.
Arguments cfg_Params {P} _.

Record BaseTask : Type := mkBaseTask {
  taskType : string;
  taskID : string;
}.

(** Modelled from the spec: the method [BaseTask.ID] is not among the sources;
    the spec has every error carry the prefix taskKind/taskID. *)
Definition ID (t : BaseTask) : string := taskType t +:+ "/" +:+ taskID t.

(** The task kinds: the constants [TaskSubmitObj] ... [TaskPause] are declared
    outside the sources; their values are the names of the task-list format. *)
Definition TaskSubmitObj : string := "SubmitObj".
Definition TaskUpdateObj : string := "UpdateObj".
Definition TaskCheckObj : string := "CheckObj".
Definition TaskDeleteObj : string := "DeleteObj".
Definition TaskUpdateNodes : string := "UpdateNodes".
Definition TaskCheckPod : string := "CheckPod".
Definition TaskSleep : string := "Sleep".
Definition TaskPause : string := "Pause".

Definition TaskKinds : list string :=
  [TaskSubmitObj; TaskUpdateObj; TaskCheckObj; TaskDeleteObj;
   TaskUpdateNodes; TaskCheckPod; TaskSleep; TaskPause].

(** ** CheckPod: parameters and construction *)

(** [time.Duration] counts nanoseconds. *)
Definition Second : Z := 1000000000.

Record checkPodTaskParams : Type := mkCheckPodTaskParams {
  RefTaskID : string;
  Status : string;
  NodeLabels : gmap string string;
  Timeout : Z;
}.

(** [CheckPodTask]; the [getter] is the engine itself and is handed to [Exec]
    as an argument. The [client] of a constructed task is never nil. *)
Record CheckPodTask : Type := mkCheckPodTask {
  base : BaseTask;
  task_params : checkPodTaskParams;
  client : Clientset;
}.

(** What the Go runtime and the YAML library contribute:
    - [range_map] is the order in which [for key, val := range m] visits a
      map, which Go leaves unspecified: any enumeration of the entries;
    - [yaml_decode] is [yaml.Marshal] followed by [yaml.Unmarshal] into the
      zero-valued parameter struct; it fails with the text of the error. *)
Record Runtime (P : Type) : Type := mkRuntime {
  range_map : gmap string string → list (string * string);
  range_map_perm : ∀ m, range_map m ≡ₚ map_to_list m;
  yaml_decode : P → string + checkPodTaskParams;
}.
Arguments range_map {P} _ _.
Arguments range_map_perm {P} _ _.
Arguments yaml_decode {P} _ _.

Section CheckPod.
Context {P : Type} (rt : Runtime P).

(** [CheckPodTask.validate]: the decoded parameters replace the task's on
    success. *)
Definition validate (b : BaseTask) (params : P) : result checkPodTaskParams :=
  match yaml_decode rt params with
  | inl cause => Err (ErrParseParams (ID b) cause)
  | inr p =>
      if decide (String.length (RefTaskID p) = 0) then
        Err (ErrMissingRefTaskId (ID b))
      else if decide (String.length (Status p) = 0 ∧ size (NodeLabels p) = 0) then
        Err (ErrMissingStatusLabels (ID b))
      else Ok p
  end.

(** [newCheckPodTask] *)
Definition newCheckPodTask (cl : option Clientset) (cfg : Task P) : result CheckPodTask :=
  match cl with
  | None => Err (ErrClientNotSet (cfg_Type cfg) (cfg_ID cfg))
  | Some c =>
      let b := {| taskType := cfg_Type cfg; taskID := cfg_ID cfg |} in
      match validate b (cfg_Params cfg) with
      | Err e => Err e
      | Ok p => Ok {| base := b; task_params := p; client := c |}
      end
  end.

(** ** CheckPod: label and phase verification *)

(** The loop of [verifyLabels] over the entries of [task.NodeLabels];
    [node.Labels[key]] is the empty string when the node has no such label. *)
Fixpoint verifyLabels_range (task : CheckPodTask) (pod : Pod) (node : Node)
    (entries : list (string * string)) : M unit :=
  match entries with
  | [] => mret tt
  | (key, val) :: rest =>
      if decide (default "" (node_Labels node !! key) ≠ val) then
        fail (ErrNodeLabel (ID (base task)) (pod_Name pod) (pod_NodeName pod) key val)
      else verifyLabels_range task pod node rest
  end.

(** [CheckPodTask.verifyLabels] *)
Definition verifyLabels (task : CheckPodTask) (pod : Pod) : M unit :=
  if decide (size (NodeLabels (task_params task)) = 0 ∨ pod_Phase pod ≠ PodRunning) then
    mret tt
  else
    emit (CallNodesGet (pod_NodeName pod));;
    match Nodes_Get (client task) (pod_NodeName pod) with
    | inl cause =>
        fail (ErrGetNode (ID (base task)) (pod_NodeName pod) (pod_Name pod) cause)
    | inr node =>
        verifyLabels_range task pod node (range_map rt (NodeLabels (task_params task)))
    end.

(** The loop of [checkPods] over [info.Pods]. *)
Fixpoint checkPods_range (task : CheckPodTask) (ns : string) (names : list string) : M unit :=
  match names with
  | [] => mret tt
  | name :: rest =>
      emit (CallPodsGet ns name);;
      match Pods_Get (client task) ns name with
      | inl cause => fail (ErrGetPod (ID (base task)) name cause)
      | inr pod =>
          let status := pod_Phase pod in
          if decide (status ≠ Status (task_params task)) then
            fail (ErrPodStatus (ID (base task)) name status (Status (task_params task)))
          else
            verifyLabels task pod;;
            checkPods_range task ns rest
      end
  end.

(** [CheckPodTask.checkPods] *)
Definition checkPods (task : CheckPodTask) (info : ObjInfo) : option error * list Call :=
  to_error (checkPods_range task (info_Namespace info) (info_Pods info)).
End CheckPod.

(** ** CheckPod: watch mode *)

(** Modelled from the spec: [utils.SyncMap] is not among the sources. It is
    the mutex-guarded map that holds the pod names still awaiting
    confirmation; each operation is atomic and [Delete] answers the number of
    entries left. *)
Abbreviation SyncMap := (gmap string bool).

Definition NewSyncMap : SyncMap := ∅.
Definition SyncMap_Set (m : SyncMap) (key : string) (val : bool) : SyncMap := <[key := val]> m.
Definition SyncMap_Get (m : SyncMap) (key : string) : option bool := m !! key.
Definition SyncMap_Delete (m : SyncMap) (key : string) : SyncMap * nat :=
  (delete key m, size (delete key m)).
Definition SyncMap_Size (m : SyncMap) : nat := size m.

(** The goroutines of [watchPods] are modelled by interleaving. Main blocks in
    its [select] from the moment the goroutines exist, so a run is the
    sequence of steps the other goroutines take before main returns:
    - [EvHandler obj]: the informer invokes [AddFunc] or [UpdateFunc] on [obj];
    - [EvListStep]: the goroutine that lists the pods advances by one step,
      the [List] request first, then one item per step.
    A step is a whole call of [verifyPod]: the informer invokes the handlers
    one at a time, the listing goroutine is the only other caller, and the
    map they share guards each of its operations. [errs] is unbuffered and
    main is its only receiver: the first value sent is the value main
    returns, and what the goroutines do after that is not observed. When the
    steps run out, [ctx.Done()] is closed and main returns [ctx.Err()]; the
    timeout is finite, so only finitely many steps come before. *)
Inductive Event : Type :=
  | EvHandler (obj : Obj)
  | EvListStep.

(** Why [ctx.Done()] was closed: the deadline of [context.WithTimeout]
    passed, or the parent context was canceled. *)
Inductive CtxDone : Type :=
  | DeadlineExceeded
  | Canceled.

Definition ctx_Err (d : CtxDone) : error :=
  match d with
  | DeadlineExceeded => ErrDeadlineExceeded
  | Canceled => ErrCanceled
  end.

(** [add_handler] is the error of [informer.AddEventHandler], if any. *)
Record WatchEnv : Type := mkWatchEnv {
  add_handler : option string;
  schedule : list Event;
  ctx_done : CtxDone;
}.

(** The listing goroutine: before its [List] request, inside the loop over
    the items not yet visited, or finished. *)
Inductive Lister : Type :=
  | ListerStart
  | ListerItems (items : list Pod)
  | ListerDone.

Record WatchState : Type := mkWatchState {
  podMap : SyncMap;
  lister : Lister;
}.

(** The outcome of one step: the new state, the value written to [errs] if
    any ([Some None] is the [nil] that signals success), and the calls made. *)
Definition StepResult : Type := WatchState * option (option error) * list Call.

Section Watch.
Context {P : Type} (rt : Runtime P).

(** [CheckPodTask.verifyPod]: the new [podMap], and the value sent on [errs]. *)
Definition verifyPod (task : CheckPodTask) (podMap : SyncMap) (obj : Obj)
    : SyncMap * option (option error) * list Call :=
  match obj with
  | ObjOther tyname =>
      (podMap, Some (Some (ErrUnexpectedType (ID (base task)) tyname)), [])
  | ObjPod pod =>
      match SyncMap_Get podMap (pod_Name pod) with
      | Some _ =>
          match verifyLabels rt task pod with
          | (Err err, t) => (podMap, Some (Some err), t)
          | (Ok _, t) =>
              let '(podMap', sz) := SyncMap_Delete podMap (pod_Name pod) in
              if decide (sz = 0) then (podMap', Some None, t)
              else (podMap', None, t)
          end
      | None => (podMap, None, [])
      end
  end.

(** One step of the goroutine spawned at line 169. *)
Definition lister_step (task : CheckPodTask) (info : ObjInfo) (st : WatchState) : StepResult :=
  match lister st with
  | ListerStart =>
      match Pods_List (client task) (info_Namespace info) with
      | inl cause =>
          ({| podMap := podMap st; lister := ListerDone |},
           Some (Some (ErrListPods (ID (base task)) cause)),
           [CallPodsList (info_Namespace info)])
      | inr items =>
          ({| podMap := podMap st; lister := ListerItems items |}, None,
           [CallPodsList (info_Namespace info)])
      end
  | ListerItems [] => ({| podMap := podMap st; lister := ListerDone |}, None, [])
  | ListerItems (item :: rest) =>
      if decide (SyncMap_Size (podMap st) = 0) then
        ({| podMap := podMap st; lister := ListerDone |}, None, [])
      else
        let '(podMap', sent, t) := verifyPod task (podMap st) (ObjPod item) in
        ({| podMap := podMap'; lister := ListerItems rest |}, sent, t)
  | ListerDone => (st, None, [])
  end.

Definition watch_step (task : CheckPodTask) (info : ObjInfo) (st : WatchState) (ev : Event)
    : StepResult :=
  match ev with
  | EvHandler obj =>
      let '(podMap', sent, t) := verifyPod task (podMap st) obj in
      ({| podMap := podMap'; lister := lister st |}, sent, t)
  | EvListStep => lister_step task info st
  end.

(** The [for { select { ... } }] of [watchPods]: the error returned, the
    state at that moment, and the calls made meanwhile. *)
Fixpoint watch_select (task : CheckPodTask) (info : ObjInfo) (st : WatchState)
    (sched : list Event) (done : CtxDone) : option error * WatchState * list Call :=
  match sched with
  | [] => (Some (ctx_Err done), st, [])
  | ev :: rest =>
      let '(st', sent, t) := watch_step task info st ev in
      match sent with
      | Some err => (err, st', t)
      | None =>
          let '(r, st'', t') := watch_select task info st' rest done in
          (r, st'', t ++ t')
      end
  end.

(** [podMap] as filled from [info.Pods]. *)
Definition initial_podMap (info : ObjInfo) : SyncMap :=
  foldl (λ m pod, SyncMap_Set m pod true) NewSyncMap (info_Pods info).

(** The state in which main reaches its [select]. *)
Definition initial_state (info : ObjInfo) : WatchState :=
  {| podMap := initial_podMap info; lister := ListerStart |}.

(** The deferred calls run on every return, last registered first. *)
Definition deferred : list Call := [CallFactoryShutdown; CallCancel].

(** [CheckPodTask.watchPods], with the state main returns in. *)
Definition watchPods_run (task : CheckPodTask) (info : ObjInfo) (env : WatchEnv)
    : option error * WatchState * list Call :=
  let st0 := initial_state info in
  let setup :=
    [CallWithTimeout (Timeout (task_params task));
     CallNewInformerFactory (30 * Second) (info_Namespace info);
     CallAddEventHandler] in
  match add_handler env with
  | Some cause => (Some (ErrOther cause), st0, setup ++ deferred)
  | None =>
      let '(r, st, t) := watch_select task info st0 (schedule env) (ctx_done env) in
      (r, st, setup ++ [CallInformerRun] ++ t ++ deferred)
  end.

Definition watchPods (task : CheckPodTask) (info : ObjInfo) (env : WatchEnv)
    : option error * list Call :=
  let '(r, _, t) := watchPods_run task info env in (r, t).

(** [CheckPodTask.Exec]; [eng] is the task's [getter]. *)
Definition Exec (task : CheckPodTask) (eng : Eng) (env : WatchEnv) : option error * list Call :=
  match GetObjInfo eng (RefTaskID (task_params task)) with
  | Err err => (Some err, [])
  | Ok info =>
      if decide (length (info_Pods info) = 0) then (None, [])
      else if decide (Timeout (task_params task) = 0%Z) then checkPods rt task info
      else watchPods task info env
  end.
End Watch.

(** ** The task factory *)

(** The other task kinds are implemented outside the sources. What [GetTask]
    and [RunTask] use of them is taken as given: their types, their
    constructors, the [RefTaskID] field and the [ID] method of the kinds
    that refer to an earlier task, and their [Exec] methods. The
    constructors are handed the engine only to store it as their
    [ObjGetter]/[ObjSetter]; [GetTask] holds the engine's mutex while they
    run. An [Exec] may change the registry through [SetObjInfo]. *)
Record TaskLib (P : Type) : Type := mkTaskLib {
  SubmitObjTask : Type;
  newSubmitObjTask : Task P → result SubmitObjTask;
  SubmitObj_Exec : SubmitObjTask → Eng → option error * Eng;
  UpdateObjTask : Type;
  newUpdateObjTask : Task P → result UpdateObjTask;
  UpdateObj_RefTaskID : UpdateObjTask → string;
  UpdateObj_ID : UpdateObjTask → string;
  UpdateObj_Exec : UpdateObjTask → Eng → option error * Eng;
  CheckObjTask : Type;
  newCheckObjTask : Task P → result CheckObjTask;
  CheckObj_RefTaskID : CheckObjTask → string;
  CheckObj_ID : CheckObjTask → string;
  CheckObj_Exec : CheckObjTask → Eng → option error * Eng;
  DeleteObjTask : Type;
  newDeleteObjTask : Task P → result DeleteObjTask;
  DeleteObj_RefTaskID : DeleteObjTask → string;
  DeleteObj_ID : DeleteObjTask → string;
  DeleteObj_Exec : DeleteObjTask → Eng → option error * Eng;
  UpdateNodesTask : Type;
  newUpdateNodesTask : option Clientset → Task P → result UpdateNodesTask;
  UpdateNodes_Exec : UpdateNodesTask → Eng → option error * Eng;
  SleepTask : Type;
  newSleepTask : Task P → result SleepTask;
  Sleep_Exec : SleepTask → Eng → option error * Eng;
  PauseTask : Type;
  newPauseTask : Task P → PauseTask;
  Pause_Exec : PauseTask → Eng → option error * Eng;
}.

Section Factory.
Context {P : Type} (rt : Runtime P) (lib : TaskLib P).
(** The concurrent events each CheckPod task meets while it watches. *)
Context (env_of : BaseTask → WatchEnv).

(** The values of the interface [Runnable]. *)
Inductive Runnable : Type :=
  | RSubmitObj (task : SubmitObjTask P lib)
  | RUpdateObj (task : UpdateObjTask P lib)
  | RCheckObj (task : CheckObjTask P lib)
  | RDeleteObj (task : DeleteObjTask P lib)
  | RUpdateNodes (task : UpdateNodesTask P lib)
  | RCheckPod (task : CheckPodTask)
  | RSleep (task : SleepTask P lib)
  | RPause (task : PauseTask P lib).

(** [Eng.GetTask] *)
Definition GetTask (eng : Eng) (cfg : Task P) : result Runnable :=
  if decide (cfg_Type cfg = TaskSubmitObj) then
    match newSubmitObjTask P lib cfg with
    | Err err => Err err
    | Ok task => Ok (RSubmitObj task)
    end
  else if decide (cfg_Type cfg = TaskUpdateObj) then
    match newUpdateObjTask P lib cfg with
    | Err err => Err err
    | Ok task =>
        match objMap eng !! UpdateObj_RefTaskID P lib task with
        | None => Err (ErrUnreferenced (UpdateObj_ID P lib task) (UpdateObj_RefTaskID P lib task))
        | Some _ => Ok (RUpdateObj task)
        end
    end
  else if decide (cfg_Type cfg = TaskCheckObj) then
    match newCheckObjTask P lib cfg with
    | Err err => Err err
    | Ok task =>
        match objMap eng !! CheckObj_RefTaskID P lib task with
        | None => Err (ErrUnreferenced (CheckObj_ID P lib task) (CheckObj_RefTaskID P lib task))
        | Some _ => Ok (RCheckObj task)
        end
    end
  else if decide (cfg_Type cfg = TaskDeleteObj) then
    match newDeleteObjTask P lib cfg with
    | Err err => Err err
    | Ok task =>
        match objMap eng !! DeleteObj_RefTaskID P lib task with
        | None => Err (ErrUnreferenced (DeleteObj_ID P lib task) (DeleteObj_RefTaskID P lib task))
        | Some _ => Ok (RDeleteObj task)
        end
    end
  else if decide (cfg_Type cfg = TaskUpdateNodes) then
    match newUpdateNodesTask P lib (k8sClient eng) cfg with
    | Err err => Err err
    | Ok task => Ok (RUpdateNodes task)
    end
  else if decide (cfg_Type cfg = TaskCheckPod) then
    match newCheckPodTask rt (k8sClient eng) cfg with
    | Err err => Err err
    | Ok task =>
        match objMap eng !! RefTaskID (task_params task) with
        | None => Err (ErrUnreferenced (ID (base task)) (RefTaskID (task_params task)))
        | Some _ => Ok (RCheckPod task)
        end
    end
  else if decide (cfg_Type cfg = TaskSleep) then
    match newSleepTask P lib cfg with
    | Err err => Err err
    | Ok task => Ok (RSleep task)
    end
  else if decide (cfg_Type cfg = TaskPause) then
    Ok (RPause (newPauseTask P lib cfg))
  else Err (ErrUnsupportedType (cfg_Type cfg)).

(** The method [Exec] of a [Runnable]. *)
Definition Runnable_Exec (r : Runnable) (eng : Eng) : option error * Eng :=
  match r with
  | RSubmitObj task => SubmitObj_Exec P lib task eng
  | RUpdateObj task => UpdateObj_Exec P lib task eng
  | RCheckObj task => CheckObj_Exec P lib task eng
  | RDeleteObj task => DeleteObj_Exec P lib task eng
  | RUpdateNodes task => UpdateNodes_Exec P lib task eng
  | RCheckPod task => (fst (Exec rt task eng (env_of (base task))), eng)
  | RSleep task => Sleep_Exec P lib task eng
  | RPause task => Pause_Exec P lib task eng
  end.

(** [execRunnable]: the logging apart, the task's [Exec]. *)
Definition execRunnable (r : Runnable) (eng : Eng) : option error * Eng :=
  Runnable_Exec r eng.

(** [Eng.RunTask] *)
Definition RunTask (eng : Eng) (cfg : Task P) : option error * Eng :=
  match GetTask eng cfg with
  | Err err => (Some err, eng)
  | Ok runnable => execRunnable runnable eng
  end.

(** [Eng.Reset] *)
Definition Reset (eng : Eng) : option error * Eng := (None, eng).
End Factory.

Arguments RSubmitObj {P lib} task.
Arguments RUpdateObj {P lib} task.
Arguments RCheckObj {P lib} task.
Arguments RDeleteObj {P lib} task.
Arguments RUpdateNodes {P lib} task.
Arguments RCheckPod {P lib} task.
Arguments RSleep {P lib} task.
Arguments RPause {P lib} task.

(** ** Construction of the engine *)

(** What [New] takes from client-go, for a configuration type [C] standing
    for [rest.Config]: [dynamic.NewForConfig], of which only the error is
    kept since the dynamic client takes no part here; [kubernetes.NewForConfig];
    and the zero-valued [&kubernetes.Clientset{}] of the simulation mode. *)
Record ClientLib (C : Type) : Type := mkClientLib {
  dynamic_NewForConfig : C → option string;
  kubernetes_NewForConfig : C → string + Clientset;
  zero_Clientset : Clientset;
}.
Arguments dynamic_NewForConfig {C} _ _.
Arguments kubernetes_NewForConfig {C} _ _.
Arguments zero_Clientset {C} _.

(** [New]; [sim] is the variadic argument, of which only the first element
    is read. *)
Definition New {C} (cl : ClientLib C) (config : C) (sim : list bool) : result Eng :=
  match sim with
  | [] =>
      match dynamic_NewForConfig cl config with
      | Some cause => Err (ErrOther cause)
      | None =>
          match kubernetes_NewForConfig cl config with
          | inl cause => Err (ErrOther cause)
          | inr c => Ok {| k8sClient := Some c; objMap := ∅ |}
          end
      end
  | true :: _ => Ok {| k8sClient := Some (zero_Clientset cl); objMap := ∅ |}
  | false :: _ => Ok {| k8sClient := None; objMap := ∅ |}
  end.

(** ** The driver *)

(** [config.TaskConfig] *)
Record TaskConfig (P : Type) : Type := mkTaskConfig {
  cfg_Name : string;
  cfg_Description : string;
  cfg_Tasks : list (Task P);
}.
Arguments cfg_Tasks {P} _.

(** The interface [Engine]; a receiver that the methods may change is passed
    in and handed back. *)
Class Engine (P E : Type) : Type := mkEngine {
  Engine_RunTask : E → Task P → option error * E;
  Engine_Reset : E → option error * E;
}.

(** The engine [Eng] implements the interface. *)
Definition Eng_Engine {P} (rt : Runtime P) (lib : TaskLib P) (env_of : BaseTask → WatchEnv)
    : Engine P Eng :=
  {| Engine_RunTask := RunTask rt lib env_of; Engine_Reset := Reset |}.

Section Driver.
Context {P E : Type} `{!Engine P E}.

(** The loop of [Run]: the value of [errExec] when the loop is left. *)
Fixpoint Run_range (eng : E) (tasks : list (Task P)) : option error * E :=
  match tasks with
  | [] => (None, eng)
  | cfg :: rest =>
      match Engine_RunTask eng cfg with
      | (Some errExec, eng') => (Some errExec, eng')
      | (None, eng') => Run_range eng' rest
      end
  end.

(** [Run] *)
Definition Run (eng : E) (testconfig : TaskConfig P) : option error * E :=
  let '(errExec, eng1) := Run_range eng (cfg_Tasks testconfig) in
  let '(errReset, eng2) := Engine_Reset eng1 in
  match errExec with
  | Some err => (Some err, eng2)
  | None => (errReset, eng2)
  end.
End Driver.

(** To observe which methods [Run] invokes, an engine is wrapped so that each
    method also appends its own call to a log. *)
Inductive EngineCall (P : Type) : Type :=
  | CalledRunTask (cfg : Task P)
  | CalledReset.
Arguments CalledRunTask {P} cfg.
Arguments CalledReset {P}.

#[global] Instance Logged_Engine {P E} `{!Engine P E} : Engine P (E * list (EngineCall P)) :=
  {| Engine_RunTask := λ '(eng, log) cfg,
       let '(r, eng') := Engine_RunTask eng cfg in (r, (eng', log ++ [CalledRunTask cfg]));
     Engine_Reset := λ '(eng, log),
       let '(r, eng') := Engine_Reset eng in (r, (eng', log ++ [CalledReset])) |}.

(** * Specifications *)

(** ** What a verification asks of a pod *)

Section Verified.
Context {P : Type} (rt : Runtime P) (task : CheckPodTask).

(** The host node is consulted when labels were required and the pod runs. *)
Definition labels_checked (pod : Pod) : Prop :=
  size (NodeLabels (task_params task)) ≠ 0 ∧ pod_Phase pod = PodRunning.

(** Every required pair is a label of the node. *)
Definition labels_present (node : Node) : Prop :=
  ∀ key val, NodeLabels (task_params task) !! key = Some val →
    node_Labels node !! key = Some val.

(** For every required key the node's value, read as empty when the node has
    no such label, is the required one. *)
Definition labels_agree (node : Node) : Prop :=
  ∀ key val, NodeLabels (task_params task) !! key = Some val →
    default "" (node_Labels node !! key) = val.

(** What a successful [verifyLabels] establishes, and the calls it makes. *)
Definition labels_ok (pod : Pod) : Prop :=
  labels_checked pod →
  ∃ node, Nodes_Get (client task) (pod_NodeName pod) = inr node ∧ labels_agree node.

Definition labels_calls (pod : Pod) : list Call :=
  if decide (labels_checked pod) then [CallNodesGet (pod_NodeName pod)] else [].

(** The pod of that name can be fetched, is in the expected phase, and its
    host node, where it is consulted, can be fetched and passes [labels]. *)
Definition pod_passes (labels : Node → Prop) (ns name : string) : Prop :=
  ∃ pod, Pods_Get (client task) ns name = inr pod ∧
    pod_Phase pod = Status (task_params task) ∧
    (labels_checked pod →
       ∃ node, Nodes_Get (client task) (pod_NodeName pod) = inr node ∧ labels node).

(** The requests one iteration of [checkPods] issues for the pod [name]. *)
Definition requests_for (ns name : string) : list Call :=
  CallPodsGet ns name ::
  match Pods_Get (client task) ns name with
  | inr pod =>
      if decide (pod_Phase pod = Status (task_params task) ∧ labels_checked pod)
      then [CallNodesGet (pod_NodeName pod)] else []
  | inl _ => []
  end.

(** What a run of [checkPods] amounts to, given what it asks of a node's
    labels: either every pod passes, and the requests are those of all the
    pods in the order of [info.Pods]; or the task fails at the first pod that
    does not pass, and the requests are those of the pods up to that one. *)
Definition checkPods_outcome (labels : Node → Prop) (info : ObjInfo)
    (r : option error * list Call) : Prop :=
  let ns := info_Namespace info in
  (r.1 = None ∧ Forall (pod_passes labels ns) (info_Pods info) ∧
   r.2 = concat (requests_for ns <$> info_Pods info)) ∨
  (∃ err pre name post,
     r.1 = Some err ∧ info_Pods info = pre ++ name :: post ∧
     Forall (pod_passes labels ns) pre ∧ ¬ pod_passes labels ns name ∧
     r.2 = concat (requests_for ns <$> pre ++ [name])).
End Verified.

(** ** What the factory and the driver are expected to do *)

(** The identifier a constructed task refers to, for the kinds that refer to
    an earlier task. *)
Definition Runnable_RefTaskID {P} {lib : TaskLib P} (r : Runnable lib) : option string :=
  match r with
  | RUpdateObj task => Some (UpdateObj_RefTaskID P lib task)
  | RCheckObj task => Some (CheckObj_RefTaskID P lib task)
  | RDeleteObj task => Some (DeleteObj_RefTaskID P lib task)
  | RCheckPod task => Some (RefTaskID (task_params task))
  | _ => None
  end.

Section DriverSpec.
Context {P E : Type} `{!Engine P E}.

(** Every task of the list runs without error, one after the other. *)
Inductive all_succeed : E → list (Task P) → E → Prop :=
  | all_succeed_nil eng : all_succeed eng [] eng
  | all_succeed_cons eng cfg eng' rest eng'' :
      Engine_RunTask eng cfg = (None, eng') →
      all_succeed eng' rest eng'' →
      all_succeed eng (cfg :: rest) eng''.

(** A run of the driver from [eng] over [tasks]: the error returned, the
    engine left, and the methods invoked in order. Either every task
    succeeds, then reset runs and its error is returned; or the tasks before
    [cfg] succeed and [cfg] fails, then no later task runs, reset runs, and
    the error of [cfg] is returned whatever reset answers. *)
Inductive driven (eng : E) (tasks : list (Task P))
    : option error → E → list (EngineCall P) → Prop :=
  | driven_through eng1 errReset eng2 :
      all_succeed eng tasks eng1 →
      Engine_Reset eng1 = (errReset, eng2) →
      driven eng tasks errReset eng2 ((CalledRunTask <$> tasks) ++ [CalledReset])
  | driven_aborted pre cfg post eng1 errExec eng2 errReset eng3 :
      tasks = pre ++ cfg :: post →
      all_succeed eng pre eng1 →
      Engine_RunTask eng1 cfg = (Some errExec, eng2) →
      Engine_Reset eng2 = (errReset, eng3) →
      driven eng tasks (Some errExec) eng3
        ((CalledRunTask <$> pre ++ [cfg]) ++ [CalledReset]).
End DriverSpec.

(** ** How a watch ends *)

(** The errors that the verification of a pod reports. *)
Definition verification_error (err : error) : Prop :=
  match err with
  | ErrGetPod _ _ _ | ErrPodStatus _ _ _ _ | ErrGetNode _ _ _ _
  | ErrNodeLabel _ _ _ _ _ | ErrUnexpectedType _ _ => True
  | _ => False
  end.


Section WatchExits.
Context {P : Type} (rt : Runtime P) (task : CheckPodTask) (info : ObjInfo).

(** Steps that write nothing to [errs]. *)
Inductive silent_run : WatchState → list Event → WatchState → Prop :=
  | silent_nil st : silent_run st [] st
  | silent_cons st ev st' t rest st'' :
      watch_step rt task info st ev = (st', None, t) →
      silent_run st' rest st'' →
      silent_run st (ev :: rest) st''.

(** [first_send sched st sent]: the steps of [sched] before [ev] are silent
    and the step [ev] leaves the state [st] and writes [sent] to [errs]. *)
Inductive first_send (sched : list Event) (st : WatchState) (sent : option error) : Prop :=
  | first_send_at before ev after st1 t :
      sched = before ++ ev :: after →
      silent_run (initial_state info) before st1 →
      watch_step rt task info st1 ev = (st, Some sent, t) →
      first_send sched st sent.

(** The ways [watchPods] ends in the environment [env], with the error it
    returns and the state it returns in. *)
Inductive watch_exit (env : WatchEnv) : option error → WatchState → Prop :=
  | exit_handler_failed cause :
      add_handler env = Some cause →
      watch_exit env (Some (ErrOther cause)) (initial_state info)
  | exit_success st :
      add_handler env = None →
      first_send (schedule env) st None →
      podMap st = ∅ →
      watch_exit env None st
  | exit_verification st err :
      add_handler env = None →
      first_send (schedule env) st (Some err) →
      verification_error err →
      watch_exit env (Some err) st
  | exit_list_failed st cause :
      add_handler env = None →
      first_send (schedule env) st (Some (ErrListPods (ID (base task)) cause)) →
      Pods_List (client task) (info_Namespace info) = inl cause →
      watch_exit env (Some (ErrListPods (ID (base task)) cause)) st
  | exit_timeout st :
      add_handler env = None →
      silent_run (initial_state info) (schedule env) st →
      ctx_done env = DeadlineExceeded →
      watch_exit env (Some ErrDeadlineExceeded) st
  | exit_canceled st :
      add_handler env = None →
      silent_run (initial_state info) (schedule env) st →
      ctx_done env = Canceled →
      watch_exit env (Some ErrCanceled) st.
End WatchExits.

(** ** Further notions *)

(** The kind of a constructed task. *)
Definition Runnable_kind {P} {lib : TaskLib P} (r : Runnable lib) : string :=
  match r with
  | RSubmitObj _ => TaskSubmitObj
  | RUpdateObj _ => TaskUpdateObj
  | RCheckObj _ => TaskCheckObj
  | RDeleteObj _ => TaskDeleteObj
  | RUpdateNodes _ => TaskUpdateNodes
  | RCheckPod _ => TaskCheckPod
  | RSleep _ => TaskSleep
  | RPause _ => TaskPause
  end.

(** The requests of the single-shot mode, and the calls a watch makes between
    its setup and its deferred calls. *)
Definition single_shot_call (ns : string) (c : Call) : Prop :=
  match c with
  | CallPodsGet ns' _ => ns' = ns
  | CallNodesGet _ => True
  | _ => False
  end.

Definition watching_call (ns : string) (c : Call) : Prop :=
  match c with
  | CallPodsList ns' => ns' = ns
  | CallNodesGet _ => True
  | _ => False
  end.

(** Two errors that are equal, or are both the label error of the same task,
    pod and node and differ at most in the label they name. *)
Definition same_up_to_label (e1 e2 : error) : Prop :=
  e1 = e2 ∨
  ∃ tid pod node key1 val1 key2 val2,
    e1 = ErrNodeLabel tid pod node key1 val1 ∧ e2 = ErrNodeLabel tid pod node key2 val2.

Definition same_result_up_to_label (r1 r2 : option error) : Prop :=
  match r1, r2 with
  | None, None => True
  | Some e1, Some e2 => same_up_to_label e1 e2
  | _, _ => False
  end.

(** The pod objects a watch can observe: those the informer hands to the
    handlers, and the items of the initial List when it succeeds. *)
Definition handled_pods (sched : list Event) : list Pod :=
  omap (λ ev, match ev with EvHandler (ObjPod pod) => Some pod | _ => None end) sched.

Definition listed_pods (task : CheckPodTask) (info : ObjInfo) : list Pod :=
  match Pods_List (client task) (info_Namespace info) with
  | inr items => items
  | inl _ => []
  end.

Definition observed_pods (task : CheckPodTask) (info : ObjInfo) (env : WatchEnv) : list Pod :=
  handled_pods (schedule env) ++ listed_pods task info.

(** [info] with another list of expected pods. *)
Definition with_Pods (info : ObjInfo) (pods : list string) : ObjInfo :=
  {| info_GVR := info_GVR info; info_Namespace := info_Namespace info;
     info_Names := info_Names info; info_Pods := pods |}.

(** Why the single-shot check of the pod [name] fails, with the error that
    reports it: the pod cannot be fetched; its phase is not the expected
    status; its host node, which is consulted, cannot be fetched; or the node
    disagrees on a required label. *)
Inductive pod_failure (task : CheckPodTask) (ns name : string) : error → Prop :=
  | failure_get cause :
      Pods_Get (client task) ns name = inl cause →
      pod_failure task ns name (ErrGetPod (ID (base task)) name cause)
  | failure_status pod :
      Pods_Get (client task) ns name = inr pod →
      pod_Phase pod ≠ Status (task_params task) →
      pod_failure task ns name
        (ErrPodStatus (ID (base task)) name (pod_Phase pod) (Status (task_params task)))
  | failure_node pod cause :
      Pods_Get (client task) ns name = inr pod →
      pod_Phase pod = Status (task_params task) →
      labels_checked task pod →
      Nodes_Get (client task) (pod_NodeName pod) = inl cause →
      pod_failure task ns name
        (ErrGetNode (ID (base task)) (pod_NodeName pod) (pod_Name pod) cause)
  | failure_label pod node key val :
      Pods_Get (client task) ns name = inr pod →
      pod_Phase pod = Status (task_params task) →
      labels_checked task pod →
      Nodes_Get (client task) (pod_NodeName pod) = inr node →
      NodeLabels (task_params task) !! key = Some val →
      default "" (node_Labels node !! key) ≠ val →
      pod_failure task ns name
        (ErrNodeLabel (ID (base task)) (pod_Name pod) (pod_NodeName pod) key val).

(** The List requests among the calls of a watch. *)
Definition is_PodsList (c : Call) : bool :=
  match c with CallPodsList _ => true | _ => false end.

Definition list_requests (t : list Call) : nat := length (List.filter is_PodsList t).

(** How many List requests the listing goroutine has still to issue. *)
Definition lists_left (st : WatchState) : nat :=
  match lister st with ListerStart => 1 | _ => 0 end.

(** The items the listing goroutine has still to visit come from the List. *)
Definition lister_within (task : CheckPodTask) (info : ObjInfo) (st : WatchState) : Prop :=
  match lister st with
  | ListerItems items => items ⊆ listed_pods task info
  | _ => True
  end.

(** The names of the pods that a sequence of calls fetches, in order. *)
Definition fetched_pods (t : list Call) : list string :=
  omap (λ c, match c with CallPodsGet _ name => Some name | _ => None end) t.

(** ** Concrete scenarios *)

(** A runtime whose task parameters arrive already decoded, and whose [range]
    visits a map in the order of [map_to_list]. *)
Definition typed_runtime : Runtime checkPodTaskParams :=
  {| range_map := map_to_list;
     range_map_perm := λ m, reflexivity (map_to_list m);
     yaml_decode := inr |}.

(** The CheckPod of the task list [test-job.yml], without and with labels. *)
Definition status_base : BaseTask := {| taskType := TaskCheckPod; taskID := "status" |}.

Definition completed_5s : checkPodTaskParams :=
  {| RefTaskID := "job"; Status := "Completed"; NodeLabels := ∅; Timeout := 5 * Second |}.

Definition job_info : ObjInfo :=
  {| info_GVR := {| gvr_Group := "batch.volcano.sh"; gvr_Version := "v1alpha1";
                    gvr_Resource := "jobs" |};
     info_Namespace := "default";
     info_Names := ["j0"];
     info_Pods := ["j0-test-0"; "j0-test-1"] |}.

(** A cluster whose pods all run on the node [n1], labelled [nodeType=gpu]
    and nothing else. *)
Definition gpu_node : Node :=
  {| node_Name := "n1"; node_Labels := {["nodeType" := "gpu"]} |}.

Definition running_cluster : Clientset :=
  {| Pods_Get := λ ns name,
       inr {| pod_Name := name; pod_Phase := "Running"; pod_NodeName := "n1" |};
     Pods_List := λ ns, inr [];
     Nodes_Get := λ name, inr gpu_node |}.

(** A single-shot CheckPod that requires the label
    [node-role.kubernetes.io/worker] with the empty value. *)
Definition worker_role_task : CheckPodTask :=
  {| base := status_base;
     task_params :=
       {| RefTaskID := "job"; Status := "Running";
          NodeLabels := {["node-role.kubernetes.io/worker" := ""]}; Timeout := 0 |};
     client := running_cluster |}.

(** A single-shot CheckPod that gives [nodeLabels] and no [status]. *)
Definition labels_only : checkPodTaskParams :=
  {| RefTaskID := "job"; Status := ""; NodeLabels := {["nodeType" := "gpu"]}; Timeout := 0 |}.

(** An engine whose registry holds the entry of the task [job]. *)
Definition job_engine : Eng :=
  {| k8sClient := Some running_cluster; objMap := {["job" := job_info]} |}.

Definition no_events : WatchEnv :=
  {| add_handler := None; schedule := []; ctx_done := DeadlineExceeded |}.

(** The CheckPod of [test-job.yml] against a cluster in which the two pods
    of the job are pending; [pending_events] lets the listing goroutine
    visit both pods before the deadline passes. *)
Definition pending_pod (name : string) : Pod :=
  {| pod_Name := name; pod_Phase := "Pending"; pod_NodeName := "" |}.

Definition pending_cluster : Clientset :=
  {| Pods_Get := λ ns name, inr (pending_pod name);
     Pods_List := λ ns, inr [pending_pod "j0-test-0"; pending_pod "j0-test-1"];
     Nodes_Get := λ name, inl "not found" |}.

Definition completed_task (cl : Clientset) : CheckPodTask :=
  {| base := status_base; task_params := completed_5s; client := cl |}.

Definition pending_events : WatchEnv :=
  {| add_handler := None;
     schedule := [EvListStep; EvListStep; EvListStep];
     ctx_done := DeadlineExceeded |}.

(** A cluster that refuses to list pods. *)
Definition refusing_cluster : Clientset :=
  {| Pods_Get := λ ns name, inl "connection refused";
     Pods_List := λ ns, inl "connection refused";
     Nodes_Get := λ name, inl "connection refused" |}.


(** A library in which the task kinds implemented elsewhere carry no data
    and always construct; SubmitObj registers the entry of the task [job],
    the kinds that refer to a task refer to [job], and Pause is canceled. *)
Definition stub_lib : TaskLib checkPodTaskParams :=
  {| SubmitObjTask := unit;
     newSubmitObjTask := λ _, Ok tt;
     SubmitObj_Exec := λ _ eng, SetObjInfo eng "job" job_info;
     UpdateObjTask := unit;
     newUpdateObjTask := λ _, Ok tt;
     UpdateObj_RefTaskID := λ _, "job";
     UpdateObj_ID := λ _, "UpdateObj/update";
     UpdateObj_Exec := λ _ eng, (None, eng);
     CheckObjTask := unit;
     newCheckObjTask := λ _, Ok tt;
     CheckObj_RefTaskID := λ _, "job";
     CheckObj_ID := λ _, "CheckObj/check";
     CheckObj_Exec := λ _ eng, (None, eng);
     DeleteObjTask := unit;
     newDeleteObjTask := λ _, Ok tt;
     DeleteObj_RefTaskID := λ _, "job";
     DeleteObj_ID := λ _, "DeleteObj/delete";
     DeleteObj_Exec := λ _ eng, (None, eng);
     UpdateNodesTask := unit;
     newUpdateNodesTask := λ _ _, Ok tt;
     UpdateNodes_Exec := λ _ eng, (None, eng);
     SleepTask := unit;
     newSleepTask := λ _, Ok tt;
     Sleep_Exec := λ _ eng, (None, eng);
     PauseTask := unit;
     newPauseTask := λ _, tt;
     Pause_Exec := λ _ eng, (Some ErrCanceled, eng) |}.

(** The third scenario of the specification: a CheckPod that refers to a
    task nobody registered. *)
Definition missing_ref : Task checkPodTaskParams :=
  {| cfg_Type := TaskCheckPod; cfg_ID := "status";
     cfg_Params := {| RefTaskID := "missing"; Status := "Completed"; NodeLabels := ∅;
                      Timeout := 5 * Second |} |}.

Definition empty_engine : Eng := {| k8sClient := Some running_cluster; objMap := ∅ |}.

(** The fifth scenario of the specification: the pods run on a node that
    lacks the required label [nodeType=gpu]. *)
Definition bare_cluster : Clientset :=
  {| Pods_Get := λ ns name,
       inr {| pod_Name := name; pod_Phase := "Running"; pod_NodeName := "n2" |};
     Pods_List := λ ns,
       inr [{| pod_Name := "j0-test-0"; pod_Phase := "Running"; pod_NodeName := "n2" |}];
     Nodes_Get := λ name, inr {| node_Name := name; node_Labels := ∅ |} |}.

Definition gpu_task (timeout : Z) : CheckPodTask :=
  {| base := status_base;
     task_params :=
       {| RefTaskID := "job"; Status := "Running";
          NodeLabels := {["nodeType" := "gpu"]}; Timeout := timeout |};
     client := bare_cluster |}.

(** The task list of [test-job.yml] and the list of the fourth scenario, in
    which the same identifier is submitted twice. *)
Definition submit_job : Task checkPodTaskParams :=
  {| cfg_Type := TaskSubmitObj; cfg_ID := "job"; cfg_Params := completed_5s |}.

Definition check_status : Task checkPodTaskParams :=
  {| cfg_Type := TaskCheckPod; cfg_ID := "status"; cfg_Params := completed_5s |}.

Definition test_job : TaskConfig checkPodTaskParams :=
  {| cfg_Name := "test-volcano-job"; cfg_Description := "submit and manage volcano job";
     cfg_Tasks := [submit_job; check_status] |}.

Definition submitted_twice : TaskConfig checkPodTaskParams :=
  {| cfg_Name := "duplicate"; cfg_Description := "the same identifier twice";
     cfg_Tasks := [submit_job; submit_job; check_status] |}.

Definition fresh_engine : Eng := {| k8sClient := Some pending_cluster; objMap := ∅ |}.

(** Client constructors that always succeed. *)
Definition ready_clients : ClientLib unit :=
  {| dynamic_NewForConfig := λ _, None;
     kubernetes_NewForConfig := λ _, inr running_cluster;
     zero_Clientset := refusing_cluster |}.

(** * Proofs *)

(** Selects the branch of [GetTask] for a descriptor whose type is [H]. *)
Ltac kind_known H :=
  unfold GetTask; rewrite H;
  repeat (rewrite decide_False by discriminate); rewrite decide_True by reflexivity.

Lemma emit_bind {A} (c : Call) (k : M A) :
  (emit c;; k) = (fst k, c :: snd k).
Proof. unfold emit. cbn. by destruct k. Qed.

(** ** The registry *)

(** C6: [SetObjInfo] on an identifier the registry already holds fails with
    the duplicate-ID error and leaves the engine as it was; on a fresh
    identifier it succeeds, and afterwards [GetObjInfo] answers the entry
    just stored while every other identifier is as before. [GetObjInfo]
    fails with the missing-ID error exactly when the identifier is absent,
    and otherwise answers the stored entry. *)
Theorem C6_registry (eng : Eng) (taskID : string) (info : ObjInfo) :
  (is_Some (objMap eng !! taskID) →
     SetObjInfo eng taskID info = (Some (ErrDuplicateID taskID), eng)) ∧
  (objMap eng !! taskID = None →
     ∃ eng', SetObjInfo eng taskID info = (None, eng') ∧
       GetObjInfo eng' taskID = Ok info ∧
       k8sClient eng' = k8sClient eng ∧
       ∀ other, other ≠ taskID → objMap eng' !! other = objMap eng !! other) ∧
  (GetObjInfo eng taskID = Err (ErrMissingID taskID) ↔ objMap eng !! taskID = None) ∧
  (∀ stored, objMap eng !! taskID = Some stored → GetObjInfo eng taskID = Ok stored).
Proof.
  unfold SetObjInfo, GetObjInfo. repeat split.
  - intros [stored Hs]. by rewrite Hs.
  - intros Hn. rewrite Hn. eexists; split; [done|]. cbn.
    rewrite lookup_insert_eq. split; [done|]. split; [done|].
    intros other Hne. by rewrite lookup_insert_ne.
  - by destruct (objMap eng !! taskID).
  - intros ->. done.
  - intros stored ->. done.
Qed.

(** ** Validation of the CheckPod parameters *)

Lemma length_zero_iff_empty (s : string) : String.length s = 0 ↔ s = "".
Proof. destruct s; cbn; split; congruence. Qed.

Lemma validate_accepts {P} (rt : Runtime P) (b : BaseTask) (params : P)
    (p : checkPodTaskParams) :
  yaml_decode rt params = inr p →
  RefTaskID p ≠ "" → Status p ≠ "" ∨ NodeLabels p ≠ ∅ →
  validate rt b params = Ok p.
Proof.
  intros Hdec Href Hsome. unfold validate. rewrite Hdec.
  rewrite decide_False by by rewrite length_zero_iff_empty.
  rewrite decide_False; [done|].
  rewrite length_zero_iff_empty, map_size_empty_iff. tauto.
Qed.

(** C7: once the parameters are decoded, validation fails with the
    missing-refTaskId error when [refTaskId] is empty, fails whenever both
    [status] and [nodeLabels] are empty (with the missing-parameters error when
    [refTaskId] is there), and succeeds, keeping the decoded parameters, when
    [refTaskId] is non-empty and [status] or [nodeLabels] is given. *)
Theorem C7_validate {P} (rt : Runtime P) (b : BaseTask) (params : P) (p : checkPodTaskParams) :
  yaml_decode rt params = inr p →
  (RefTaskID p = "" → validate rt b params = Err (ErrMissingRefTaskId (ID b))) ∧
  (Status p = "" ∧ NodeLabels p = ∅ → is_ok (validate rt b params) = false) ∧
  (RefTaskID p ≠ "" → Status p = "" ∧ NodeLabels p = ∅ →
     validate rt b params = Err (ErrMissingStatusLabels (ID b))) ∧
  (RefTaskID p ≠ "" → Status p ≠ "" ∨ NodeLabels p ≠ ∅ → validate rt b params = Ok p).
Proof.
  intros Hdec. split; [|split; [|split]].
  - intros Href. unfold validate. rewrite Hdec.
    by rewrite decide_True by by rewrite length_zero_iff_empty.
  - intros [Hst Hlab]. unfold validate. rewrite Hdec.
    case_decide; [done|].
    by rewrite decide_True by by rewrite length_zero_iff_empty, map_size_empty_iff.
  - intros Href [Hst Hlab]. unfold validate. rewrite Hdec.
    rewrite decide_False by by rewrite length_zero_iff_empty.
    by rewrite decide_True by by rewrite length_zero_iff_empty, map_size_empty_iff.
  - by apply validate_accepts.
Qed.

Lemma C7_validate_witness :
  yaml_decode typed_runtime completed_5s = inr completed_5s ∧
  validate typed_runtime status_base completed_5s = Ok completed_5s.
Proof.
  split; [reflexivity|].
  apply (C7_validate typed_runtime status_base completed_5s completed_5s);
    [reflexivity | discriminate | left; discriminate].
Defined.

(** C8: when the registry holds the referenced ObjInfo and it lists no pod,
    [Exec] succeeds at once and issues no request (no Get, no List) and no
    call to the informer library, whatever the timeout. *)
Theorem C8_Exec_no_pods {P} (rt : Runtime P) (task : CheckPodTask) (eng : Eng)
    (env : WatchEnv) (info : ObjInfo) :
  objMap eng !! RefTaskID (task_params task) = Some info →
  info_Pods info = [] →
  Exec rt task eng env = (None, []).
Proof.
  intros Hreg Hpods. unfold Exec, GetObjInfo. rewrite Hreg, Hpods. done.
Qed.

Lemma C8_Exec_no_pods_witness :
  Exec typed_runtime {| base := status_base; task_params := completed_5s; client := running_cluster |}
    {| k8sClient := Some running_cluster;
       objMap := {["job" := {| info_GVR := info_GVR job_info; info_Namespace := "default";
                               info_Names := ["j0"]; info_Pods := [] |}]} |}
    no_events = (None, []).
Proof.
  eapply C8_Exec_no_pods; reflexivity.
Defined.

(** ** Single-shot verification *)

Section CheckPodsLemmas.
Context {P : Type} (rt : Runtime P) (task : CheckPodTask).

Lemma verifyLabels_range_spec (pod : Pod) (node : Node) (entries : list (string * string)) :
  (verifyLabels_range task pod node entries = (Ok tt, []) ∧
   Forall (λ kv, default "" (node_Labels node !! kv.1) = kv.2) entries) ∨
  (∃ key val, verifyLabels_range task pod node entries =
      (Err (ErrNodeLabel (ID (base task)) (pod_Name pod) (pod_NodeName pod) key val), []) ∧
    (key, val) ∈ entries ∧ default "" (node_Labels node !! key) ≠ val).
Proof.
  induction entries as [|[key val] rest IH]; cbn.
  - left. split; [done | constructor].
  - case_decide as Hne.
    + right. exists key, val. split; [done|]. split; [left | done].
    + destruct IH as [[-> Hall] | (k & v & -> & Hin & Hbad)].
      * left. split; [done|]. constructor; [|done]. cbn.
        destruct (decide (default "" (node_Labels node !! key) = val)); [done | tauto].
      * right. exists k, v. split; [done|]. split; [by right | done].
Qed.

Lemma range_map_agree (node : Node) :
  Forall (λ kv, default "" (node_Labels node !! kv.1) = kv.2)
    (range_map rt (NodeLabels (task_params task))) ↔ labels_agree task node.
Proof.
  rewrite Forall_forall. unfold labels_agree. split.
  - intros H key val Hk. apply (H (key, val)).
    rewrite (range_map_perm rt). by apply elem_of_map_to_list.
  - intros H [key val] Hin. cbn. apply H.
    rewrite (range_map_perm rt) in Hin. by apply elem_of_map_to_list in Hin.
Qed.

Lemma verifyLabels_spec (pod : Pod) :
  (verifyLabels rt task pod = (Ok tt, labels_calls task pod) ∧ labels_ok task pod) ∨
  (∃ err, verifyLabels rt task pod = (Err err, labels_calls task pod) ∧ ¬ labels_ok task pod).
Proof.
  unfold verifyLabels, labels_calls, labels_ok, labels_checked.
  case_decide as Hskip.
  - rewrite decide_False by tauto. left. split; [done | tauto].
  - rewrite decide_True by (split; [tauto | by destruct (decide (pod_Phase pod = PodRunning)); [|tauto]]).
    rewrite emit_bind.
    destruct (Nodes_Get (client task) (pod_NodeName pod)) as [cause | node] eqn:Hnode.
    + right. eexists. split; [done|]. intros H. destruct H as (node & Hn & _); [|done].
      split; [tauto | by destruct (decide (pod_Phase pod = PodRunning)); [|tauto]].
    + destruct (verifyLabels_range_spec pod node (range_map rt (NodeLabels (task_params task))))
        as [[-> Hall] | (k & v & -> & Hin & Hbad)].
      * left. split; [done|]. intros _. exists node. split; [done|]. by apply range_map_agree.
      * right. eexists. split; [done|]. intros H. destruct H as (node' & Hn & Hag).
        { split; [tauto | by destruct (decide (pod_Phase pod = PodRunning)); [|tauto]]. }
        injection Hn as <-. apply Hbad, Hag.
        rewrite (range_map_perm rt) in Hin. by apply elem_of_map_to_list in Hin.
Qed.
End CheckPodsLemmas.

Lemma bind_Ok {A B} (a : A) (t : list Call) (k : A → M B) :
  ((Ok a, t) ≫= k) = ((k a).1, t ++ (k a).2).
Proof. cbn. by destruct (k a). Qed.

Lemma bind_Err {A B} (e : error) (t : list Call) (k : A → M B) :
  ((Err e, t) ≫= k) = (Err e, t).
Proof. done. Qed.

Lemma concat_one {A B} (f : A → list B) (x : A) : concat (f <$> [] ++ [x]) = f x.
Proof. cbn. by rewrite app_nil_r. Qed.

Lemma concat_step {A B} (f : A → list B) (x : A) (l : list A) :
  concat (f <$> x :: l) = f x ++ concat (f <$> l).
Proof. done. Qed.

Section CheckPodsSpec.
Context {P : Type} (rt : Runtime P) (task : CheckPodTask) (ns : string).

Lemma requests_for_failed_get (name cause : string) :
  Pods_Get (client task) ns name = inl cause →
  requests_for task ns name = [CallPodsGet ns name] ∧
  ¬ pod_passes task (labels_agree task) ns name.
Proof.
  intros Hget. unfold requests_for, pod_passes. rewrite Hget. split; [done|].
  intros (pod & Hp & _). discriminate.
Qed.

Lemma requests_for_wrong_phase (name : string) (pod : Pod) :
  Pods_Get (client task) ns name = inr pod →
  pod_Phase pod ≠ Status (task_params task) →
  requests_for task ns name = [CallPodsGet ns name] ∧
  ¬ pod_passes task (labels_agree task) ns name.
Proof.
  intros Hget Hne. unfold requests_for, pod_passes. rewrite Hget. split.
  - by rewrite decide_False by tauto.
  - intros (pod' & Hp & Hph & _). by injection Hp as <-.
Qed.

Lemma requests_for_right_phase (name : string) (pod : Pod) :
  Pods_Get (client task) ns name = inr pod →
  pod_Phase pod = Status (task_params task) →
  requests_for task ns name = CallPodsGet ns name :: labels_calls task pod ∧
  (pod_passes task (labels_agree task) ns name ↔ labels_ok task pod).
Proof.
  intros Hget Hph. unfold requests_for, pod_passes, labels_calls, labels_ok.
  rewrite Hget. split.
  - destruct (decide (labels_checked task pod)).
    + by rewrite decide_True.
    + by rewrite decide_False by tauto.
  - split.
    + intros (pod' & Hp & _ & Hl). by injection Hp as <-.
    + intros Hl. by exists pod.
Qed.

Lemma checkPods_range_spec (names : list string) :
  (checkPods_range rt task ns names = (Ok tt, concat (requests_for task ns <$> names)) ∧
   Forall (pod_passes task (labels_agree task) ns) names) ∨
  (∃ err pre name post,
     checkPods_range rt task ns names =
       (Err err, concat (requests_for task ns <$> pre ++ [name])) ∧
     names = pre ++ name :: post ∧
     Forall (pod_passes task (labels_agree task) ns) pre ∧
     ¬ pod_passes task (labels_agree task) ns name).
Proof.
  induction names as [|name rest IH].
  - left. split; [done | constructor].
  - cbn [checkPods_range]. rewrite emit_bind.
    destruct (Pods_Get (client task) ns name) as [cause | pod] eqn:Hget.
    + destruct (requests_for_failed_get name cause Hget) as [Hreq Hnot].
      right. exists (ErrGetPod (ID (base task)) name cause), [], name, rest.
      rewrite concat_one, Hreq. done.
    + cbn zeta. case_decide as Hph.
      * destruct (requests_for_wrong_phase name pod Hget Hph) as [Hreq Hnot].
        right. eexists _, [], name, rest. rewrite concat_one, Hreq. done.
      * assert (pod_Phase pod = Status (task_params task)) as Heq
          by (destruct (decide (pod_Phase pod = Status (task_params task))); [done | tauto]).
        destruct (requests_for_right_phase name pod Hget Heq) as [Hreq Hiff].
        destruct (verifyLabels_spec rt task pod) as [[-> Hok] | (err & -> & Hbad)].
        -- rewrite bind_Ok.
           destruct IH as [[-> Hall] | (err & pre & bad & post & -> & -> & Hall & Hnot)].
           ++ left. rewrite concat_step, Hreq. split; [done|].
              constructor; [by apply Hiff | done].
           ++ right. exists err, (name :: pre), bad, post.
              rewrite <- app_comm_cons, concat_step, Hreq.
              split; [done|]. split; [done|]. split; [|done].
              constructor; [by apply Hiff | done].
        -- rewrite bind_Err. right. exists err, [], name, rest.
           rewrite concat_one, Hreq.
           split; [done|]. split; [done|]. split; [constructor|].
           by rewrite Hiff.
Qed.
End CheckPodsSpec.

(** What [checkPods] does as it is written: it issues one Get per expected
    pod in the order of [info.Pods]; a pod passes when the Get succeeds, its
    phase is the expected status and, if it runs and labels were required,
    its host node can be fetched and, for every required key, the node's
    value (read as empty when the node lacks the label) is the required one;
    the task fails at the first pod that does not pass and fetches no later
    pod. *)
Lemma checkPods_as_written {P} (rt : Runtime P) (task : CheckPodTask) (info : ObjInfo) :
  checkPods_outcome task (labels_agree task) info (checkPods rt task info).
Proof.
  unfold checkPods_outcome, checkPods.
  destruct (checkPods_range_spec rt task (info_Namespace info) (info_Pods info))
    as [[-> Hall] | (err & pre & name & post & -> & Hsplit & Hall & Hnot)].
  - left. done.
  - right. exists err, pre, name, post. done.
Qed.

(** C2: the task requires the label [node-role.kubernetes.io/worker] with
    the empty value, and both pods run on a node that has no such label.
    [checkPods] fetches each pod and its node and succeeds, although the
    required pair is not a label of the node: [verifyLabels] compares
    [node.Labels[key]], the empty string for a missing key, with the
    required value, where its error message speaks of a node without the
    label. So the run is not one in which every pod passes with every
    required pair present on its node, nor one that fails at a pod. *)
Theorem C2_empty_value_label_passes :
  checkPods typed_runtime worker_role_task job_info =
    (None, [CallPodsGet "default" "j0-test-0"; CallNodesGet "n1";
            CallPodsGet "default" "j0-test-1"; CallNodesGet "n1"]) ∧
  node_Labels gpu_node !! "node-role.kubernetes.io/worker" = None ∧
  ¬ checkPods_outcome worker_role_task (labels_present worker_role_task) job_info
      (checkPods typed_runtime worker_role_task job_info).
Proof.
  split; [by vm_compute|]. split; [by vm_compute|].
  intros [(_ & Hall & _) | (err & pre & name & post & Hr & _)].
  - apply Forall_cons in Hall as [(pod & Hget & _ & Hlabels) _].
    injection Hget as <-.
    destruct Hlabels as (node & Hnode & Hpresent).
    { split; [by vm_compute | reflexivity]. }
    injection Hnode as <-.
    specialize (Hpresent "node-role.kubernetes.io/worker" "" eq_refl).
    vm_compute in Hpresent. discriminate.
  - vm_compute in Hr. discriminate.
Qed.

(** The fifth scenario of the specification, without a timeout: the first pod
    runs on a node without the label, and the second pod is not fetched. *)
Example label_mismatch :
  checkPods typed_runtime (gpu_task 0) job_info =
    (Some (ErrNodeLabel "CheckPod/status" "j0-test-0" "n2" "nodeType" "gpu"),
     [CallPodsGet "default" "j0-test-0"; CallNodesGet "n2"]).
Proof. by vm_compute. Qed.

Lemma checkPods_success {P} (rt : Runtime P) (task : CheckPodTask) (info : ObjInfo) :
  (checkPods rt task info).1 = None →
  Forall (pod_passes task (labels_agree task) (info_Namespace info)) (info_Pods info).
Proof.
  unfold checkPods.
  destruct (checkPods_range_spec rt task (info_Namespace info) (info_Pods info))
    as [[-> Hall] | (err & pre & name & post & -> & _)]; [done | discriminate].
Qed.

(** C10: parameters that give [nodeLabels] and no [status] pass validation,
    and a CheckPod built from them that runs without a timeout fails as soon
    as one of the expected pods reports a non-empty phase: the phase is
    compared with the empty expected status whatever the labels are. *)
Theorem C10_labels_only_fails {P} (rt : Runtime P) (b : BaseTask) (params : P)
    (p : checkPodTaskParams) (cl : Clientset) (eng : Eng) (env : WatchEnv)
    (info : ObjInfo) (name : string) (pod : Pod) :
  yaml_decode rt params = inr p →
  RefTaskID p ≠ "" → Status p = "" → NodeLabels p ≠ ∅ → Timeout p = 0%Z →
  objMap eng !! RefTaskID p = Some info →
  name ∈ info_Pods info →
  Pods_Get cl (info_Namespace info) name = inr pod →
  pod_Phase pod ≠ "" →
  validate rt b params = Ok p ∧
  ∃ err, (Exec rt {| base := b; task_params := p; client := cl |} eng env).1 = Some err.
Proof.
  intros Hdec Href Hst Hlab Hto Hreg Hin Hget Hphase.
  split; [apply validate_accepts; auto|].
  unfold Exec, GetObjInfo. cbn [task_params]. rewrite Hreg.
  rewrite decide_False by (destruct (info_Pods info); [by apply elem_of_nil in Hin | done]).
  rewrite decide_True by done.
  set (task := {| base := b; task_params := p; client := cl |}).
  destruct (checkPods rt task info).1 as [err|] eqn:Hr; [by exists err|].
  apply checkPods_success in Hr.
  rewrite Forall_forall in Hr. destruct (Hr name Hin) as (pod' & Hget' & Hph & _).
  cbn in Hget', Hph. rewrite Hget in Hget'. injection Hget' as <-. congruence.
Qed.

Lemma C10_labels_only_fails_witness :
  validate typed_runtime status_base labels_only = Ok labels_only ∧
  ∃ err, (Exec typed_runtime
            {| base := status_base; task_params := labels_only; client := running_cluster |}
            job_engine no_events).1 = Some err.
Proof.
  apply (C10_labels_only_fails typed_runtime status_base labels_only labels_only
           running_cluster job_engine no_events job_info "j0-test-0"
           {| pod_Name := "j0-test-0"; pod_Phase := "Running"; pod_NodeName := "n1" |});
    try reflexivity; try discriminate.
  apply list_elem_of_here.
Defined.

(** ** Watch mode *)

Section WatchLemmas.
Context {P : Type} (rt : Runtime P) (task : CheckPodTask) (info : ObjInfo).

Lemma verifyLabels_error (pod : Pod) (err : error) (t : list Call) :
  verifyLabels rt task pod = (Err err, t) → verification_error err.
Proof.
  unfold verifyLabels. case_decide; [discriminate|]. rewrite emit_bind.
  destruct (Nodes_Get (client task) (pod_NodeName pod)) as [cause | node].
  - cbn. intros [= <- _]. done.
  - destruct (verifyLabels_range_spec task pod node
                (range_map rt (NodeLabels (task_params task))))
      as [[-> _] | (k & v & -> & _)]; cbn; [discriminate|].
    intros [= <- _]. done.
Qed.

(** What one call of [verifyPod] does to the remaining set, by what it sends. *)
Lemma verifyPod_sent (m m' : SyncMap) (obj : Obj) (sent : option (option error))
    (t : list Call) :
  verifyPod rt task m obj = (m', sent, t) →
  match sent with
  | None => m ≠ ∅ → m' ≠ ∅
  | Some None => m' = ∅
  | Some (Some err) => m' = m ∧ verification_error err
  end.
Proof.
  unfold verifyPod, SyncMap_Get, SyncMap_Delete. destruct obj as [pod | tyname].
  - destruct (m !! pod_Name pod) as [v|].
    + destruct (verifyLabels rt task pod) as [[[] | err] t'] eqn:Hl.
      * case_decide as Hsz; intros [= <- <- <-].
        -- by apply map_size_empty_iff.
        -- intros _ Hempty. by rewrite Hempty, map_size_empty in Hsz.
      * intros [= <- <- <-]. split; [done|]. by eapply verifyLabels_error.
    + intros [= <- <- <-]. done.
  - intros [= <- <- <-]. done.
Qed.

Lemma watch_step_sent (st st' : WatchState) (ev : Event) (sent : option (option error))
    (t : list Call) :
  watch_step rt task info st ev = (st', sent, t) →
  match sent with
  | None => podMap st ≠ ∅ → podMap st' ≠ ∅
  | Some None => podMap st' = ∅
  | Some (Some err) =>
      podMap st' = podMap st ∧
      (verification_error err ∨
       ∃ cause, err = ErrListPods (ID (base task)) cause ∧
                Pods_List (client task) (info_Namespace info) = inl cause)
  end.
Proof.
  destruct ev as [obj|]; cbn [watch_step].
  - destruct (verifyPod rt task (podMap st) obj) as [[m' sent'] t'] eqn:Hv.
    intros [= <- <- <-]. apply verifyPod_sent in Hv.
    destruct sent' as [[err|]|]; cbn; [|done..]. destruct Hv. auto.
  - unfold lister_step. destruct (lister st) as [|[|item rest]|].
    + destruct (Pods_List (client task) (info_Namespace info)) as [cause|items] eqn:Hlist;
        intros [= <- <- <-]; cbn; [|done].
      split; [done|]. right. by exists cause.
    + intros [= <- <- <-]. done.
    + case_decide.
      * intros [= <- <- <-]. done.
      * destruct (verifyPod rt task (podMap st) (ObjPod item)) as [[m' sent'] t'] eqn:Hv.
        intros [= <- <- <-]. apply verifyPod_sent in Hv.
        destruct sent' as [[err|]|]; cbn; [|done..]. destruct Hv. auto.
    + intros [= <- <- <-]. done.
Qed.

(** The remaining set only shrinks. *)
Lemma watch_step_shrinks (st st' : WatchState) (ev : Event) (sent : option (option error))
    (t : list Call) :
  watch_step rt task info st ev = (st', sent, t) → podMap st' ⊆ podMap st.
Proof.
  assert (∀ m obj m' sent' t', verifyPod rt task m obj = (m', sent', t') → m' ⊆ m) as Hv.
  { intros m obj m' sent' t'. unfold verifyPod, SyncMap_Get, SyncMap_Delete.
    destruct obj as [pod | tyname]; [|by intros [= <- _ _]].
    destruct (m !! pod_Name pod); [|by intros [= <- _ _]].
    destruct (verifyLabels rt task pod) as [[[] | err] t'']; [|by intros [= <- _ _]].
    case_decide; intros [= <- _ _]; apply delete_subseteq. }
  destruct ev as [obj|]; cbn [watch_step].
  - destruct (verifyPod rt task (podMap st) obj) as [[m' sent'] t'] eqn:Hobj.
    intros [= <- _ _]. by eapply Hv.
  - unfold lister_step. destruct (lister st) as [|[|item rest]|].
    + destruct (Pods_List (client task) (info_Namespace info)); by intros [= <- _ _].
    + by intros [= <- _ _].
    + case_decide; [by intros [= <- _ _]|].
      destruct (verifyPod rt task (podMap st) (ObjPod item)) as [[m' sent'] t'] eqn:Hobj.
      intros [= <- _ _]. by eapply Hv.
    + by intros [= <- _ _].
Qed.

Lemma silent_run_nonempty (st st' : WatchState) (sched : list Event) :
  silent_run rt task info st sched st' → podMap st ≠ ∅ → podMap st' ≠ ∅.
Proof.
  induction 1 as [|st ev st1 t rest st2 Hstep _ IH]; [done|].
  intros Hne. apply IH. by apply (watch_step_sent _ _ _ _ _ Hstep).
Qed.

(** Main returns the first value written to [errs], in the state that step
    left, or [ctx.Err()] after steps that were all silent. *)
Lemma watch_select_spec (sched : list Event) (done : CtxDone) (st st' : WatchState)
    (r : option error) (t : list Call) :
  watch_select rt task info st sched done = (r, st', t) →
  (silent_run rt task info st sched st' ∧ r = Some (ctx_Err done)) ∨
  (∃ before ev after st1 t1,
     sched = before ++ ev :: after ∧
     silent_run rt task info st before st1 ∧
     watch_step rt task info st1 ev = (st', Some r, t1)).
Proof.
  revert st t. induction sched as [|ev rest IH]; intros st t; cbn [watch_select].
  - intros [= <- <- <-]. left. split; [constructor | done].
  - destruct (watch_step rt task info st ev) as [[st1 sent] t1] eqn:Hstep.
    destruct sent as [v|].
    + intros [= <- <- <-]. right. exists [], ev, rest, st, t1.
      split; [done|]. split; [constructor | done].
    + destruct (watch_select rt task info st1 rest done) as [[r' st2] t2] eqn:Hrest.
      intros [= <- <- <-].
      destruct (IH _ _ Hrest) as [[Hsil ->] | (before & ev' & after & st3 & t3 & -> & Hsil & Hsend)].
      * left. split; [by econstructor | done].
      * right. exists (ev :: before), ev', after, st3, t3.
        split; [done|]. split; [by econstructor | done].
Qed.

Lemma foldl_Set_lookup (names : list string) (m : SyncMap) (pod : string) :
  is_Some (foldl (λ m pod, SyncMap_Set m pod true) m names !! pod) ↔
  pod ∈ names ∨ is_Some (m !! pod).
Proof.
  revert m. induction names as [|name rest IH]; intros m; cbn [foldl].
  - rewrite elem_of_nil. tauto.
  - rewrite IH, elem_of_cons. unfold SyncMap_Set.
    destruct (decide (name = pod)) as [->|Hne].
    + rewrite lookup_insert_eq. split; [auto|]. intros _. right. by eexists.
    + rewrite lookup_insert_ne by done. split; [tauto|]. intros [[?|?]|?]; [congruence|auto..].
Qed.

(** The remaining set starts as the set of the expected pods. *)
Lemma initial_podMap_lookup (pod : string) :
  is_Some (initial_podMap info !! pod) ↔ pod ∈ info_Pods info.
Proof.
  unfold initial_podMap, NewSyncMap. rewrite foldl_Set_lookup, lookup_empty.
  split; [|auto]. intros [?|[? ?]]; [done | discriminate].
Qed.

Lemma initial_podMap_nonempty : info_Pods info ≠ [] → initial_podMap info ≠ ∅.
Proof.
  intros Hne Hempty. destruct (info_Pods info) as [|pod rest] eqn:Hpods; [done|].
  assert (is_Some (initial_podMap info !! pod)) as [v Hv].
  { apply initial_podMap_lookup. rewrite Hpods. left. }
  by rewrite Hempty, lookup_empty in Hv.
Qed.

(** The classification of the ways [watchPods] returns. *)
Lemma watchPods_run_exit (env : WatchEnv) (r : option error) (st : WatchState)
    (t : list Call) :
  watchPods_run rt task info env = (r, st, t) →
  watch_exit rt task info env r st.
Proof.
  unfold watchPods_run. destruct (add_handler env) as [cause|] eqn:Hadd.
  - intros [= <- <- <-]. by constructor.
  - destruct (watch_select rt task info (initial_state info) (schedule env) (ctx_done env))
      as [[r' st'] t'] eqn:Hsel.
    intros [= <- <- <-].
    destruct (watch_select_spec _ _ _ _ _ _ Hsel)
      as [[Hsil ->] | (before & ev & after & st1 & t1 & Hsched & Hsil & Hsend)].
    + destruct (ctx_done env) eqn:Hdone; [by apply exit_timeout | by apply exit_canceled].
    + pose proof (watch_step_sent _ _ _ _ _ Hsend) as Hsent.
      assert (first_send rt task info (schedule env) st' r') as Hfirst by by econstructor.
      destruct r' as [err|]; cbn in Hsent.
      * destruct Hsent as [_ [Hver | (cause & -> & Hlist)]].
        -- by apply exit_verification.
        -- by apply exit_list_failed.
      * by apply exit_success.
Qed.




(** In the interleaving of whole calls of [verifyPod], and with pods to wait
    for, the remaining set is empty in the end exactly when the watch
    succeeded. *)
Lemma watchPods_run_success (env : WatchEnv) (r : option error) (st : WatchState)
    (t : list Call) :
  info_Pods info ≠ [] →
  watchPods_run rt task info env = (r, st, t) →
  (r = None ↔ podMap st = ∅).
Proof.
  intros Hpods Hrun. pose proof (initial_podMap_nonempty Hpods) as Hne.
  destruct (watchPods_run_exit _ _ _ _ Hrun)
    as [cause Hadd | st Hadd Hfirst Hempty | st err Hadd Hfirst Hver
       | st cause Hadd Hfirst Hlist | st Hadd Hsil Hdone | st Hadd Hsil Hdone].
  - split; [done | by intros ?].
  - done.
  - split; [done|]. intros Hempty. destruct Hfirst as [before ev after st1 t1 _ Hsil Hsend].
    apply watch_step_sent in Hsend as [Heq _]. rewrite Hempty in Heq.
    by destruct (silent_run_nonempty _ _ _ Hsil Hne).
  - split; [done|]. intros Hempty. destruct Hfirst as [before ev after st1 t1 _ Hsil Hsend].
    apply watch_step_sent in Hsend as [Heq _]. rewrite Hempty in Heq.
    by destruct (silent_run_nonempty _ _ _ Hsil Hne).
  - split; [done|]. intros Hempty. by destruct (silent_run_nonempty _ _ _ Hsil Hne).
  - split; [done|]. intros Hempty. by destruct (silent_run_nonempty _ _ _ Hsil Hne).
Qed.
End WatchLemmas.





(** The fifth scenario under a timeout: the label error ends the watch. With
    no event before the deadline, the watch ends with the deadline error. *)
Example watch_label_mismatch :
  Exec typed_runtime (gpu_task (5 * Second)) job_engine
    {| add_handler := None; schedule := [EvListStep; EvListStep];
       ctx_done := DeadlineExceeded |} =
    (Some (ErrNodeLabel "CheckPod/status" "j0-test-0" "n2" "nodeType" "gpu"),
     [CallWithTimeout (5 * Second); CallNewInformerFactory (30 * Second) "default";
      CallAddEventHandler; CallInformerRun; CallPodsList "default"; CallNodesGet "n2";
      CallFactoryShutdown; CallCancel]).
Proof. by vm_compute. Qed.

Example watch_deadline :
  (Exec typed_runtime (completed_task pending_cluster) job_engine no_events).1 =
    Some ErrDeadlineExceeded.
Proof. by vm_compute. Qed.

Lemma verifyLabels_range_ext (task task' : CheckPodTask) (pod : Pod) (node : Node)
    (entries : list (string * string)) :
  base task' = base task →
  verifyLabels_range task' pod node entries = verifyLabels_range task pod node entries.
Proof.
  intros Hbase. induction entries as [|[key val] rest IH]; [done|].
  cbn. by rewrite Hbase, IH.
Qed.

(** [verifyLabels] reads the task's identity, labels and client only. *)
Lemma verifyLabels_ext {P} (rt : Runtime P) (task task' : CheckPodTask) (pod : Pod) :
  base task' = base task →
  NodeLabels (task_params task') = NodeLabels (task_params task) →
  client task' = client task →
  verifyLabels rt task' pod = verifyLabels rt task pod.
Proof.
  intros Hbase Hlabels Hclient. unfold verifyLabels.
  rewrite Hbase, Hlabels, Hclient.
  case_decide; [done|].
  destruct (Nodes_Get (client task) (pod_NodeName pod)); [done|].
  by rewrite (verifyLabels_range_ext task task').
Qed.

(** C1: the pods of the job are pending and the task expects them completed,
    yet each pod the listing goroutine visits is removed from the remaining
    set and the watch succeeds before the deadline: [verifyPod] checks the
    labels and never compares the phase with the expected status. For every
    task, what [verifyPod] does is the same whatever status is expected. *)
Theorem C1_watch_ignores_phase :
  Exec typed_runtime (completed_task pending_cluster) job_engine pending_events =
    (None, [CallWithTimeout (5 * Second); CallNewInformerFactory (30 * Second) "default";
            CallAddEventHandler; CallInformerRun; CallPodsList "default";
            CallFactoryShutdown; CallCancel]) ∧
  (watchPods_run typed_runtime (completed_task pending_cluster) job_info pending_events).1.2 =
    {| podMap := ∅; lister := ListerItems [] |} ∧
  ∀ (P : Type) (rt : Runtime P) (task : CheckPodTask) (expected : string)
    (remaining : SyncMap) (obj : Obj),
    verifyPod rt
      {| base := base task;
         task_params :=
           {| RefTaskID := RefTaskID (task_params task); Status := expected;
              NodeLabels := NodeLabels (task_params task);
              Timeout := Timeout (task_params task) |};
         client := client task |} remaining obj =
    verifyPod rt task remaining obj.
Proof.
  split; [by vm_compute|]. split; [by vm_compute|].
  intros P rt task expected remaining obj. destruct obj as [pod | tyname]; [|done].
  unfold verifyPod. destruct (SyncMap_Get remaining (pod_Name pod)); [|done].
  by rewrite (verifyLabels_ext rt task).
Qed.

Lemma not_in_setup (ns : string) (d : Z) (ns' : string) (pre post : list Call)
    (rest : list Call) :
  [CallWithTimeout d; CallNewInformerFactory (30 * Second) ns'; CallAddEventHandler] ++ rest =
    pre ++ CallPodsList ns :: post →
  ∃ pre', pre = [CallWithTimeout d; CallNewInformerFactory (30 * Second) ns';
                 CallAddEventHandler] ++ pre' ∧
          rest = pre' ++ CallPodsList ns :: post.
Proof.
  intros Heq. destruct pre as [|c1 [|c2 [|c3 pre']]]; try discriminate.
  cbn in Heq. injection Heq as <- <- <- ->. by exists pre'.
Qed.

(** The order that the program fixes between the two sources of a watch:
    in every run of [watchPods], a List request is preceded, in the order of
    the calls, by the registration of the Add and Update handlers, which
    succeeded, and by the start of the informer; when the registration fails
    no List is issued. What the informer then delivers is the library's. *)
Lemma watchPods_list_after_registration {P} (rt : Runtime P) (task : CheckPodTask)
    (info : ObjInfo) (env : WatchEnv) (ns : string) (pre post : list Call) :
  (watchPods rt task info env).2 = pre ++ CallPodsList ns :: post →
  add_handler env = None ∧
  ∃ before after, pre = before ++ CallAddEventHandler :: CallInformerRun :: after ∧
                  CallPodsList ns ∉ before.
Proof.
  unfold watchPods, watchPods_run. destruct (add_handler env) as [cause|].
  - cbn. intros Heq. apply not_in_setup in Heq as (pre' & _ & Heq).
    unfold deferred in Heq. destruct pre' as [|c1 [|c2 [|c3 pre']]]; discriminate.
  - destruct (watch_select rt task info (initial_state info) (schedule env) (ctx_done env))
      as [[r st] t]. cbn [snd]. intros Heq.
    apply not_in_setup in Heq as (pre' & -> & Heq).
    destruct pre' as [|c pre']; [discriminate|]. injection Heq as <- _.
    split; [done|].
    exists [CallWithTimeout (Timeout (task_params task));
            CallNewInformerFactory (30 * Second) (info_Namespace info)], pre'.
    split; [done|]. rewrite !elem_of_cons, elem_of_nil. intros [?|[?|?]]; done.
Qed.

Example watchPods_list_after_registration_run :
  add_handler pending_events = None ∧
  ∃ before after,
    [CallWithTimeout (5 * Second); CallNewInformerFactory (30 * Second) "default";
     CallAddEventHandler; CallInformerRun] =
      before ++ CallAddEventHandler :: CallInformerRun :: after ∧
    CallPodsList "default" ∉ before.
Proof.
  apply (watchPods_list_after_registration typed_runtime (completed_task pending_cluster)
           job_info pending_events "default" _ [CallFactoryShutdown; CallCancel]).
  by vm_compute.
Qed.

(** ** The factory *)

Section FactoryLemmas.
Context {P : Type} (rt : Runtime P) (lib : TaskLib P).

Lemma TaskKinds_distinct : NoDup TaskKinds.
Proof. compute_done. Qed.

(** A task that refers to an earlier one leaves the factory only with its
    reference registered. *)
Lemma GetTask_referenced (eng : Eng) (cfg : Task P) (r : Runnable lib) (ref : string) :
  GetTask rt lib eng cfg = Ok r →
  Runnable_RefTaskID r = Some ref →
  is_Some (objMap eng !! ref).
Proof.
  unfold GetTask.
  repeat case_decide;
    repeat match goal with
      | |- context [match ?x with _ => _ end] => destruct x eqn:?
      end;
    intros [= <-]; cbn; intros [= <-]; by eexists.
Qed.







End FactoryLemmas.


(** The third scenario of the specification: the factory answers the
    unreferenced-task-ID error and the task is not run. *)
Example unreferenced_at_construction :
  GetTask typed_runtime stub_lib empty_engine missing_ref =
    Err (ErrUnreferenced "CheckPod/status" "missing") ∧
  RunTask typed_runtime stub_lib (λ _, no_events) empty_engine missing_ref =
    (Some (ErrUnreferenced "CheckPod/status" "missing"), empty_engine).
Proof. split; by vm_compute. Qed.

(** ** The driver *)

Section DriverLemmas.
Context {P E : Type} `{!Engine P E}.

(** The loop of [Run], on the engine and on the engine that logs its calls. *)
Lemma Run_range_spec (tasks : list (Task P)) (eng : E) (log : list (EngineCall P)) :
  (∃ eng1,
     all_succeed eng tasks eng1 ∧
     Run_range eng tasks = (None, eng1) ∧
     Run_range (eng, log) tasks = (None, (eng1, log ++ (CalledRunTask <$> tasks)))) ∨
  (∃ pre cfg post eng1 errExec eng2,
     tasks = pre ++ cfg :: post ∧
     all_succeed eng pre eng1 ∧
     Engine_RunTask eng1 cfg = (Some errExec, eng2) ∧
     Run_range eng tasks = (Some errExec, eng2) ∧
     Run_range (eng, log) tasks =
       (Some errExec, (eng2, log ++ (CalledRunTask <$> pre ++ [cfg])))).
Proof.
  revert eng log. induction tasks as [|cfg rest IH]; intros eng log.
  - left. exists eng. cbn. rewrite app_nil_r. split; [constructor | done].
  - cbn [Run_range]. cbn [Engine_RunTask Logged_Engine].
    destruct (Engine_RunTask eng cfg) as [[errExec|] eng'] eqn:Hrun.
    + right. exists [], cfg, rest, eng, errExec, eng'.
      split; [done|]. split; [constructor | done].
    + destruct (IH eng' (log ++ [CalledRunTask cfg]))
        as [(eng1 & Hall & -> & ->)
           | (pre & bad & post & eng1 & errExec & eng2 & -> & Hall & Hbad & -> & ->)].
      * left. exists eng1. split; [by econstructor|]. split; [done|].
        by rewrite <- app_assoc.
      * right. exists (cfg :: pre), bad, post, eng1, errExec, eng2.
        split; [done|]. split; [by econstructor|]. split; [done|]. split; [done|].
        by rewrite <- app_assoc.
Qed.
End DriverLemmas.

(** C3: [Run] invokes [RunTask] on the tasks in the order of the list, stops
    at the first that fails, then invokes [Reset], once, whether a task failed
    or not; it returns the error of the failed task if there is one, even if
    [Reset] fails too, and otherwise what [Reset] returns. The calls are read
    off an engine that logs them, which returns what the engine itself does.
    For the engine [Eng], [RunTask] fails exactly when the construction of
    the task fails or its execution does, and [Reset] never fails. *)
Theorem C3_Run {P E} `{!Engine P E} (eng : E) (testconfig : TaskConfig P) :
  (∃ r eng' log,
     Run (eng, []) testconfig = (r, (eng', log)) ∧
     Run eng testconfig = (r, eng') ∧
     driven eng (cfg_Tasks testconfig) r eng' log) ∧
  (∀ (rt : Runtime P) (lib : TaskLib P) env_of (e : Eng) (cfg : Task P) (err : error),
     (RunTask rt lib env_of e cfg).1 = Some err ↔
     GetTask rt lib e cfg = Err err ∨
     ∃ task, GetTask rt lib e cfg = Ok task ∧
             (Runnable_Exec rt lib env_of task e).1 = Some err) ∧
  (∀ e : Eng, Reset e = (None, e)).
Proof.
  split; [|split; [|done]].
  - unfold Run.
    destruct (Run_range_spec (cfg_Tasks testconfig) eng [])
      as [(eng1 & Hall & -> & ->)
         | (pre & bad & post & eng1 & errExec & eng2 & Htasks & Hall & Hbad & -> & ->)];
      cbn [Engine_Reset Logged_Engine].
    + destruct (Engine_Reset eng1) as [errReset eng2] eqn:Hreset.
      exists errReset, eng2, ((CalledRunTask <$> cfg_Tasks testconfig) ++ [CalledReset]).
      split; [by destruct errReset|]. split; [by destruct errReset|].
      by econstructor.
    + destruct (Engine_Reset eng2) as [errReset eng3] eqn:Hreset.
      exists (Some errExec), eng3, ((CalledRunTask <$> pre ++ [bad]) ++ [CalledReset]).
      split; [done|]. split; [done|]. by econstructor.
  - intros rt lib env_of e cfg err. unfold RunTask, execRunnable.
    destruct (GetTask rt lib e cfg) as [task | err']; cbn.
    + split; [intros H; right; by exists task|].
      intros [? | (task' & [= <-] & H)]; done.
    + split; [intros [= ->]; by left|].
      intros [[= ->] | (task' & ? & _)]; done.
Qed.

(** The fourth scenario of the specification: the second submission of the
    same identifier fails on the registry, the CheckPod after it is not run,
    and reset is still invoked. *)
Example duplicate_submission :
  let eng := Eng_Engine typed_runtime stub_lib (λ _, no_events) in
  let '(r, (_, log)) := Run (fresh_engine, []) submitted_twice in
  r = Some (ErrDuplicateID "job") ∧
  log = [CalledRunTask submit_job; CalledRunTask submit_job; CalledReset].
Proof. by vm_compute. Qed.

(** The task list of [test-job.yml] when no event reaches the watch before
    the deadline: the submission registers the job, the CheckPod ends with
    the deadline error, and reset is invoked. *)
Example test_job_deadline :
  let eng := Eng_Engine typed_runtime stub_lib (λ _, no_events) in
  let '(r, (_, log)) := Run (fresh_engine, []) test_job in
  r = Some ErrDeadlineExceeded ∧
  log = [CalledRunTask submit_job; CalledRunTask check_status; CalledReset].
Proof. by vm_compute. Qed.

(** * Further properties of the engine *)

(** ** The registry, beyond a single operation *)

(** X1: [SetObjInfo] never removes or replaces an entry, whether it succeeds
    or fails: every identifier registered before is registered after with the
    same ObjInfo, and the client is untouched. *)
Theorem X1_SetObjInfo_keeps_entries (eng : Eng) (taskID : string) (info : ObjInfo) :
  (∀ other stored, objMap eng !! other = Some stored →
     objMap (SetObjInfo eng taskID info).2 !! other = Some stored) ∧
  k8sClient (SetObjInfo eng taskID info).2 = k8sClient eng.
Proof.
  unfold SetObjInfo. destruct (objMap eng !! taskID) as [old|] eqn:Hid; cbn.
  - done.
  - split; [|done]. intros other stored Hother.
    rewrite lookup_insert_ne; [done|]. intros ->. congruence.
Qed.

(** X2: the first registration of an identifier wins: registering the same
    identifier again, with any ObjInfo, fails with the duplicate-ID error and
    leaves the engine as the first call left it. *)
Theorem X2_SetObjInfo_twice (eng : Eng) (taskID : string) (first second : ObjInfo) :
  SetObjInfo (SetObjInfo eng taskID first).2 taskID second =
    (Some (ErrDuplicateID taskID), (SetObjInfo eng taskID first).2).
Proof.
  unfold SetObjInfo at 2 3. destruct (objMap eng !! taskID) as [old|] eqn:Hid; cbn.
  - unfold SetObjInfo. by rewrite Hid.
  - unfold SetObjInfo. cbn. by rewrite lookup_insert_eq.
Qed.

(** X3: registrations under different identifiers do not interfere: either
    order leaves the same engine, and whether the second one succeeds does
    not depend on the first having been made. *)
Theorem X3_SetObjInfo_commute (eng : Eng) (id1 id2 : string) (info1 info2 : ObjInfo) :
  id1 ≠ id2 →
  (SetObjInfo (SetObjInfo eng id1 info1).2 id2 info2).2 =
    (SetObjInfo (SetObjInfo eng id2 info2).2 id1 info1).2 ∧
  (SetObjInfo (SetObjInfo eng id1 info1).2 id2 info2).1 = (SetObjInfo eng id2 info2).1.
Proof.
  intros Hne. unfold SetObjInfo.
  destruct (objMap eng !! id1) as [old1|] eqn:H1;
    destruct (objMap eng !! id2) as [old2|] eqn:H2; cbn;
    rewrite ?H1, ?H2, ?lookup_insert_ne by done; rewrite ?H1, ?H2; cbn; try done.
  split; [|done]. unfold set_objMap. cbn. f_equal. by apply insert_insert_ne.
Qed.

Lemma X3_SetObjInfo_commute_witness :
  (SetObjInfo (SetObjInfo empty_engine "a" job_info).2 "b" job_info).2 =
    (SetObjInfo (SetObjInfo empty_engine "b" job_info).2 "a" job_info).2 ∧
  (SetObjInfo (SetObjInfo empty_engine "a" job_info).2 "b" job_info).1 =
    (SetObjInfo empty_engine "b" job_info).1.
Proof.
  apply (X3_SetObjInfo_commute empty_engine "a" "b" job_info job_info). discriminate.
Defined.

(** ** Construction of the engine and of the tasks *)

Lemma GetTask_kind_of {P} (rt : Runtime P) (lib : TaskLib P) (eng : Eng) (cfg : Task P)
    (r : Runnable lib) :
  GetTask rt lib eng cfg = Ok r → Runnable_kind r = cfg_Type cfg.
Proof.
  unfold GetTask.
  repeat case_decide;
    repeat match goal with
      | |- context [match ?x with _ => _ end] => destruct x eqn:?
      end;
    intros [= <-]; cbn; congruence.
Qed.

Lemma newCheckPodTask_Ok {P} (rt : Runtime P) (cl : option Clientset) (cfg : Task P)
    (task : CheckPodTask) :
  newCheckPodTask rt cl cfg = Ok task →
  cl = Some (client task) ∧
  base task = {| taskType := cfg_Type cfg; taskID := cfg_ID cfg |} ∧
  yaml_decode rt (cfg_Params cfg) = inr (task_params task) ∧
  RefTaskID (task_params task) ≠ "" ∧
  (Status (task_params task) ≠ "" ∨ NodeLabels (task_params task) ≠ ∅).
Proof.
  unfold newCheckPodTask, validate. destruct cl as [c|]; [|discriminate].
  destruct (yaml_decode rt (cfg_Params cfg)) as [cause | p]; [discriminate|].
  case_decide as Href; [discriminate|]. case_decide as Hboth; [discriminate|].
  intros [= <-]. cbn. rewrite length_zero_iff_empty in Href.
  rewrite length_zero_iff_empty, map_size_empty_iff in Hboth.
  repeat split; [done|].
  destruct (decide (Status p = "")); [right | by left]. tauto.
Qed.

(** X4: an engine that [New] returns has an empty registry: every lookup
    fails with the missing-ID error, every first registration succeeds, and
    the factory returns no task that refers to an earlier one. *)
Theorem X4_New_fresh {C} (cl : ClientLib C) (config : C) (sim : list bool) (eng : Eng) :
  New cl config sim = Ok eng →
  (∀ taskID, GetObjInfo eng taskID = Err (ErrMissingID taskID)) ∧
  (∀ taskID info, (SetObjInfo eng taskID info).1 = None) ∧
  (∀ (P : Type) (rt : Runtime P) (lib : TaskLib P) (cfg : Task P) (r : Runnable lib),
     GetTask rt lib eng cfg = Ok r → Runnable_RefTaskID r = None).
Proof.
  intros Hnew. assert (objMap eng = ∅) as Hempty.
  { unfold New in Hnew. destruct sim as [|[] rest].
    - destruct (dynamic_NewForConfig cl config); [discriminate|].
      destruct (kubernetes_NewForConfig cl config); [discriminate|].
      by injection Hnew as <-.
    - by injection Hnew as <-.
    - by injection Hnew as <-. }
  split; [|split].
  - intros taskID. unfold GetObjInfo. by rewrite Hempty, lookup_empty.
  - intros taskID info. unfold SetObjInfo. by rewrite Hempty, lookup_empty.
  - intros P rt lib cfg r Hget.
    destruct (Runnable_RefTaskID r) as [ref|] eqn:Href; [|done].
    destruct (GetTask_referenced rt lib eng cfg r ref Hget Href) as [info Hinfo].
    by rewrite Hempty, lookup_empty in Hinfo.
Qed.

(** X5: with a [sim] argument [New] never fails and does not consult the
    configuration; when its first element is false the engine has no typed
    client, and the factory rejects every CheckPod descriptor with the
    client-not-set error. Without [sim], [New] succeeds exactly when both
    client constructors do, and then carries the typed client. *)
Theorem X5_New_modes {C} (cl : ClientLib C) (config : C) :
  (∀ first rest config', New cl config (first :: rest) = New cl config' (first :: rest) ∧
     is_ok (New cl config (first :: rest)) = true) ∧
  (∀ rest, ∃ eng, New cl config (false :: rest) = Ok eng ∧ k8sClient eng = None ∧
     ∀ (P : Type) (rt : Runtime P) (lib : TaskLib P) (cfg : Task P),
       cfg_Type cfg = TaskCheckPod →
       GetTask rt lib eng cfg = Err (ErrClientNotSet (cfg_Type cfg) (cfg_ID cfg))) ∧
  (∀ eng, New cl config [] = Ok eng ↔
     dynamic_NewForConfig cl config = None ∧
     ∃ c, kubernetes_NewForConfig cl config = inr c ∧
          eng = {| k8sClient := Some c; objMap := ∅ |}).
Proof.
  split; [|split].
  - intros [] rest config'; done.
  - intros rest. eexists. split; [done|]. split; [done|].
    intros P rt lib cfg Htype. kind_known Htype. cbn. by rewrite Htype.
  - intros eng. unfold New.
    destruct (dynamic_NewForConfig cl config) as [cause|].
    + split; [discriminate | by intros [? _]].
    + destruct (kubernetes_NewForConfig cl config) as [cause | c].
      * split; [discriminate | by intros [_ (c & ? & _)]].
      * split.
        -- intros [= <-]. split; [done|]. by exists c.
        -- intros [_ (c' & [= <-] & ->)]. done.
Qed.

Lemma X4_New_fresh_witness :
  New ready_clients tt [] = Ok {| k8sClient := Some running_cluster; objMap := ∅ |} ∧
  (∀ taskID, GetObjInfo {| k8sClient := Some running_cluster; objMap := ∅ |} taskID =
     Err (ErrMissingID taskID)).
Proof.
  split; [reflexivity|].
  apply (X4_New_fresh ready_clients tt [] {| k8sClient := Some running_cluster; objMap := ∅ |}).
  reflexivity.
Defined.

(** X6: a task that the factory returns is of the kind the descriptor
    names, and that kind is one of the eight; the error of a constructor that
    fails is passed on as it is. *)
Theorem X6_GetTask_kind {P} (rt : Runtime P) (lib : TaskLib P) (eng : Eng) (cfg : Task P)
    (r : Runnable lib) :
  GetTask rt lib eng cfg = Ok r →
  Runnable_kind r = cfg_Type cfg ∧ cfg_Type cfg ∈ TaskKinds ∧
  match r with
  | RSubmitObj task => newSubmitObjTask P lib cfg = Ok task
  | RUpdateObj task => newUpdateObjTask P lib cfg = Ok task
  | RCheckObj task => newCheckObjTask P lib cfg = Ok task
  | RDeleteObj task => newDeleteObjTask P lib cfg = Ok task
  | RUpdateNodes task => newUpdateNodesTask P lib (k8sClient eng) cfg = Ok task
  | RCheckPod task => newCheckPodTask rt (k8sClient eng) cfg = Ok task
  | RSleep task => newSleepTask P lib cfg = Ok task
  | RPause task => newPauseTask P lib cfg = task
  end.
Proof.
  intros Hget. pose proof (GetTask_kind_of rt lib eng cfg r Hget) as Hkind.
  split; [done|]. split.
  - rewrite <- Hkind. unfold TaskKinds. destruct r; cbn; set_solver.
  - revert Hget. unfold GetTask.
    repeat case_decide;
      repeat match goal with
        | |- context [match ?x with _ => _ end] => destruct x eqn:?
        end;
      intros [= <-]; done.
Qed.

Lemma X6_GetTask_kind_witness :
  GetTask typed_runtime stub_lib job_engine check_status =
    Ok (RCheckPod (completed_task running_cluster)) ∧
  Runnable_kind (lib := stub_lib) (RCheckPod (completed_task running_cluster)) =
    cfg_Type check_status.
Proof.
  split; [by vm_compute|].
  apply (X6_GetTask_kind typed_runtime stub_lib job_engine check_status). by vm_compute.
Defined.

(** X7: the factory looks at the registry only to see whether the referred
    identifier is registered, never at the ObjInfo stored: two engines with
    the same client and the same registered identifiers answer every
    descriptor alike. *)
Theorem X7_GetTask_reads_keys {P} (rt : Runtime P) (lib : TaskLib P) (eng1 eng2 : Eng)
    (cfg : Task P) :
  k8sClient eng1 = k8sClient eng2 →
  dom (objMap eng1) = dom (objMap eng2) →
  GetTask rt lib eng1 cfg = GetTask rt lib eng2 cfg.
Proof.
  intros Hclient Hdom.
  assert (∀ k, objMap eng1 !! k = None ↔ objMap eng2 !! k = None) as Hk.
  { intros k. by rewrite <- !not_elem_of_dom, Hdom. }
  unfold GetTask. rewrite Hclient.
  repeat case_decide; try done;
    match goal with
    | |- context [match ?x with _ => _ end] => destruct x eqn:?
    end; try done;
    match goal with
    | |- context [objMap eng1 !! ?k] =>
        specialize (Hk k);
        destruct (objMap eng1 !! k), (objMap eng2 !! k); try done;
        exfalso; destruct Hk as [Hk1 Hk2]; first [by specialize (Hk1 eq_refl) | by specialize (Hk2 eq_refl)]
    end.
Qed.

Lemma X7_GetTask_reads_keys_witness :
  GetTask typed_runtime stub_lib job_engine check_status =
    GetTask typed_runtime stub_lib
      {| k8sClient := Some running_cluster;
         objMap := {["job" := {| info_GVR := info_GVR job_info; info_Namespace := "other";
                                 info_Names := []; info_Pods := [] |}]} |} check_status.
Proof.
  apply (X7_GetTask_reads_keys typed_runtime stub_lib); [reflexivity | by vm_compute].
Defined.

(** X8: registering more tasks never invalidates a descriptor: a task the
    factory returns for a registry is returned for every larger registry. *)
Theorem X8_GetTask_monotone {P} (rt : Runtime P) (lib : TaskLib P) (eng eng' : Eng)
    (cfg : Task P) (r : Runnable lib) :
  k8sClient eng' = k8sClient eng →
  objMap eng ⊆ objMap eng' →
  GetTask rt lib eng cfg = Ok r →
  GetTask rt lib eng' cfg = Ok r.
Proof.
  intros Hclient Hsub. unfold GetTask. rewrite Hclient.
  repeat case_decide; try done;
    match goal with
    | |- context [match ?x with _ => _ end] => destruct x eqn:?
    end; try done;
    match goal with
    | |- context [objMap eng !! ?k] =>
        destruct (objMap eng !! k) as [info|] eqn:Hk; [|discriminate];
        by rewrite (lookup_weaken _ _ _ _ Hk Hsub)
    end.
Qed.

Lemma X8_GetTask_monotone_witness :
  GetTask typed_runtime stub_lib (SetObjInfo job_engine "later" job_info).2 check_status =
    Ok (RCheckPod (completed_task running_cluster)).
Proof.
  apply (X8_GetTask_monotone typed_runtime stub_lib job_engine);
    [reflexivity | | by vm_compute].
  apply insert_subseteq. by vm_compute.
Defined.

(** X9: without a client [newCheckPodTask] fails with the client-not-set
    error whatever the parameters are. A task it returns carries the given
    client, the descriptor's type and identifier, and the decoded parameters,
    with a non-empty [refTaskId] and a [status] or [nodeLabels]. *)
Theorem X9_newCheckPodTask {P} (rt : Runtime P) (cl : option Clientset) (cfg : Task P) :
  (cl = None →
     newCheckPodTask rt cl cfg = Err (ErrClientNotSet (cfg_Type cfg) (cfg_ID cfg))) ∧
  (∀ task, newCheckPodTask rt cl cfg = Ok task →
     cl = Some (client task) ∧
     ID (base task) = cfg_Type cfg +:+ "/" +:+ cfg_ID cfg ∧
     yaml_decode rt (cfg_Params cfg) = inr (task_params task) ∧
     RefTaskID (task_params task) ≠ "" ∧
     (Status (task_params task) ≠ "" ∨ NodeLabels (task_params task) ≠ ∅)).
Proof.
  split; [by intros ->|].
  intros task Hnew.
  destruct (newCheckPodTask_Ok rt cl cfg task Hnew) as (Hcl & Hbase & Hdec & Href & Hsome).
  split; [done|]. split; [by rewrite Hbase|]. done.
Qed.

(** ** Single-shot verification, further *)

Section CheckPodsMore.
Context {P : Type} (rt : Runtime P) (task : CheckPodTask).

(** The error of [verifyLabels], in detail. *)
Lemma verifyLabels_failure (pod : Pod) (err : error) (t : list Call) :
  verifyLabels rt task pod = (Err err, t) →
  labels_checked task pod ∧
  ((∃ cause, Nodes_Get (client task) (pod_NodeName pod) = inl cause ∧
      err = ErrGetNode (ID (base task)) (pod_NodeName pod) (pod_Name pod) cause) ∨
   (∃ node key val,
      Nodes_Get (client task) (pod_NodeName pod) = inr node ∧
      NodeLabels (task_params task) !! key = Some val ∧
      default "" (node_Labels node !! key) ≠ val ∧
      err = ErrNodeLabel (ID (base task)) (pod_Name pod) (pod_NodeName pod) key val)).
Proof.
  unfold verifyLabels, labels_checked. case_decide as Hskip; [discriminate|].
  rewrite emit_bind. intros H. split.
  { split; [tauto|]. destruct (decide (pod_Phase pod = PodRunning)); [done | tauto]. }
  destruct (Nodes_Get (client task) (pod_NodeName pod)) as [cause | node].
  - cbn in H. injection H as <- _. left. by exists cause.
  - destruct (verifyLabels_range_spec task pod node
                (range_map rt (NodeLabels (task_params task))))
      as [[Hok _] | (key & val & Hbad & Hin & Hne)];
      rewrite ?Hok, ?Hbad in H; cbn in H; [discriminate|].
    injection H as <- _. right. exists node, key, val.
    split; [done|]. split; [|done].
    rewrite (range_map_perm rt) in Hin. by apply elem_of_map_to_list in Hin.
Qed.

Lemma checkPods_range_failure (ns : string) (names : list string) (err : error)
    (t : list Call) :
  checkPods_range rt task ns names = (Err err, t) →
  ∃ pre name post,
    names = pre ++ name :: post ∧
    Forall (pod_passes task (labels_agree task) ns) pre ∧
    pod_failure task ns name err.
Proof.
  revert t. induction names as [|name rest IH]; intros t; [discriminate|].
  cbn [checkPods_range]. rewrite emit_bind.
  destruct (Pods_Get (client task) ns name) as [cause | pod] eqn:Hget.
  - cbn. intros [= <- _]. exists [], name, rest.
    split; [done|]. split; [constructor | by constructor].
  - cbn zeta. case_decide as Hph.
    + cbn. intros [= <- _]. exists [], name, rest.
      split; [done|]. split; [constructor | by constructor].
    + assert (pod_Phase pod = Status (task_params task)) as Heq
        by (destruct (decide (pod_Phase pod = Status (task_params task))); [done | tauto]).
      destruct (requests_for_right_phase task ns name pod Hget Heq) as [_ Hiff].
      destruct (verifyLabels rt task pod) as [[[] | err'] t1] eqn:Hl.
      * rewrite bind_Ok. destruct (checkPods_range rt task ns rest) as [r t2] eqn:Hrest.
        cbn. intros [= -> _].
        destruct (IH _ eq_refl) as (pre & bad & post & -> & Hall & Hfail).
        exists (name :: pre), bad, post. split; [done|]. split; [|done].
        constructor; [|done]. apply Hiff.
        destruct (verifyLabels_spec rt task pod) as [[_ Hok] | (e & He & _)];
          [done | rewrite Hl in He; discriminate].
      * rewrite bind_Err. cbn. intros [= <- _]. exists [], name, rest.
        split; [done|]. split; [constructor|].
        destruct (verifyLabels_failure pod err' t1 Hl)
          as [Hchecked [(cause & Hnode & ->) | (node & key & val & Hnode & Hk & Hne & ->)]].
        -- by eapply failure_node.
        -- by eapply failure_label.
Qed.

Lemma checkPods_range_app (ns : string) (l1 l2 : list string) :
  checkPods_range rt task ns (l1 ++ l2) =
    match checkPods_range rt task ns l1 with
    | (Ok _, t) =>
        ((checkPods_range rt task ns l2).1, t ++ (checkPods_range rt task ns l2).2)
    | (Err err, t) => (Err err, t)
    end.
Proof.
  induction l1 as [|name rest IH].
  - cbn. by destruct (checkPods_range rt task ns l2).
  - cbn [checkPods_range app]. rewrite !emit_bind.
    destruct (Pods_Get (client task) ns name) as [cause | pod]; [done|].
    cbn zeta. case_decide; [done|].
    destruct (verifyLabels rt task pod) as [[[] | err] t1].
    + rewrite !bind_Ok, IH.
      destruct (checkPods_range rt task ns rest) as [[[] | err] t2]; cbn; [|done].
      by rewrite !app_assoc.
    + by rewrite !bind_Err.
Qed.
End CheckPodsMore.

(** X10: a single-shot check of a list of pods is the check of a first part
    followed, if that succeeds, by the check of the rest: a failure in the
    first part is the result, with its requests only; otherwise the result
    is that of the rest, after the requests of the first part. *)
Theorem X10_checkPods_app {P} (rt : Runtime P) (task : CheckPodTask) (info : ObjInfo)
    (first rest : list string) :
  checkPods rt task (with_Pods info (first ++ rest)) =
    match checkPods rt task (with_Pods info first) with
    | (Some err, t) => (Some err, t)
    | (None, t) =>
        ((checkPods rt task (with_Pods info rest)).1,
         t ++ (checkPods rt task (with_Pods info rest)).2)
    end.
Proof.
  unfold checkPods, with_Pods. cbn [info_Namespace info_Pods].
  rewrite checkPods_range_app.
  destruct (checkPods_range rt task (info_Namespace info) first) as [[[] | err] t1]; [|done].
  by destruct (checkPods_range rt task (info_Namespace info) rest) as [[[] | err] t2].
Qed.

(** X11: when a single-shot check fails, the error reports the first pod
    of the list that does not pass and why: the failed Get of the pod, its
    phase against the expected status, the failed Get of its node, or a
    required label on which the node disagrees; every pod before it passes. *)
Theorem X11_checkPods_error {P} (rt : Runtime P) (task : CheckPodTask) (info : ObjInfo)
    (err : error) :
  (checkPods rt task info).1 = Some err →
  ∃ pre name post,
    info_Pods info = pre ++ name :: post ∧
    Forall (pod_passes task (labels_agree task) (info_Namespace info)) pre ∧
    pod_failure task (info_Namespace info) name err.
Proof.
  unfold checkPods.
  destruct (checkPods_range rt task (info_Namespace info) (info_Pods info))
    as [[[] | err'] t] eqn:Hrun; [discriminate|].
  cbn. intros [= <-]. by eapply checkPods_range_failure.
Qed.

Lemma X11_checkPods_error_witness :
  ∃ pre name post,
    info_Pods job_info = pre ++ name :: post ∧
    Forall (pod_passes (gpu_task 0) (labels_agree (gpu_task 0)) "default") pre ∧
    pod_failure (gpu_task 0) "default" name
      (ErrNodeLabel "CheckPod/status" "j0-test-0" "n2" "nodeType" "gpu").
Proof.
  apply (X11_checkPods_error typed_runtime (gpu_task 0) job_info). by vm_compute.
Defined.

Section MapOrder.
Context {P1 P2 : Type} (rt1 : Runtime P1) (rt2 : Runtime P2) (task : CheckPodTask).

Lemma verifyLabels_any_order (pod : Pod) :
  (verifyLabels rt1 task pod).2 = (verifyLabels rt2 task pod).2 ∧
  match (verifyLabels rt1 task pod).1, (verifyLabels rt2 task pod).1 with
  | Ok _, Ok _ => True
  | Err e1, Err e2 => same_up_to_label e1 e2
  | _, _ => False
  end.
Proof.
  destruct (verifyLabels_spec rt1 task pod) as [[H1 Hok1] | (e1 & H1 & Hbad1)];
    destruct (verifyLabels_spec rt2 task pod) as [[H2 Hok2] | (e2 & H2 & Hbad2)];
    try tauto; rewrite H1, H2; cbn; split; try done.
  destruct (verifyLabels_failure rt1 task pod e1 _ H1)
    as [_ [(c1 & Hn1 & ->) | (n1 & k1 & v1 & Hn1 & _ & _ & ->)]];
    destruct (verifyLabels_failure rt2 task pod e2 _ H2)
      as [_ [(c2 & Hn2 & ->) | (n2 & k2 & v2 & Hn2 & _ & _ & ->)]];
    rewrite Hn1 in Hn2; try discriminate.
  - injection Hn2 as <-. by left.
  - right. by eexists _, _, _, _, _, _, _.
Qed.

Lemma checkPods_range_any_order (ns : string) (names : list string) :
  (checkPods_range rt1 task ns names).2 = (checkPods_range rt2 task ns names).2 ∧
  same_result_up_to_label (to_error (checkPods_range rt1 task ns names)).1
                          (to_error (checkPods_range rt2 task ns names)).1.
Proof.
  induction names as [|name rest [IHt IHr]]; [done|].
  cbn [checkPods_range]. rewrite !emit_bind.
  destruct (Pods_Get (client task) ns name) as [cause | pod].
  - cbn. split; [done | by left].
  - cbn zeta. case_decide.
    + cbn. split; [done | by left].
    + destruct (verifyLabels_any_order pod) as [Ht Hr].
      destruct (verifyLabels rt1 task pod) as [[[] | e1] t1];
        destruct (verifyLabels rt2 task pod) as [[[] | e2] t2];
        cbn in Ht, Hr; try done; subst t2.
      * rewrite !bind_Ok. cbn [fst snd]. rewrite IHt. split; [done|].
        revert IHr.
        by destruct (checkPods_range rt1 task ns rest) as [[[] | ?] ?],
                    (checkPods_range rt2 task ns rest) as [[[] | ?] ?].
      * rewrite !bind_Err. by cbn.
Qed.
End MapOrder.

(** X12: the order in which the Go runtime visits the map of required labels
    does not influence a single-shot check: whatever the order, the requests
    are the same, the check succeeds or fails alike, and the errors are the
    same except that a label error may name another of the labels on which
    the node disagrees. *)
Theorem X12_checkPods_any_order {P1 P2} (rt1 : Runtime P1) (rt2 : Runtime P2)
    (task : CheckPodTask) (info : ObjInfo) :
  (checkPods rt1 task info).2 = (checkPods rt2 task info).2 ∧
  same_result_up_to_label (checkPods rt1 task info).1 (checkPods rt2 task info).1.
Proof.
  unfold checkPods.
  destruct (checkPods_range_any_order rt1 rt2 task (info_Namespace info) (info_Pods info))
    as [Ht Hr].
  split; [|done].
  revert Ht.
  by destruct (checkPods_range rt1 task (info_Namespace info) (info_Pods info)) as [[[] | ?] ?],
              (checkPods_range rt2 task (info_Namespace info) (info_Pods info)) as [[[] | ?] ?].
Qed.

Lemma requests_single_shot {P} (rt : Runtime P) (task : CheckPodTask) (info : ObjInfo) :
  Forall (single_shot_call (info_Namespace info)) (checkPods rt task info).2.
Proof.
  assert (∀ name, Forall (single_shot_call (info_Namespace info))
                    (requests_for task (info_Namespace info) name)) as Hreq.
  { intros name. unfold requests_for. constructor; [done|].
    destruct (Pods_Get (client task) (info_Namespace info) name); [constructor|].
    case_decide; [|constructor]. by repeat constructor. }
  assert (∀ names, Forall (single_shot_call (info_Namespace info))
                     (concat (requests_for task (info_Namespace info) <$> names))) as Hall.
  { intros names. apply Forall_concat, Forall_fmap, Forall_forall. intros name _. apply Hreq. }
  unfold checkPods.
  destruct (checkPods_range_spec rt task (info_Namespace info) (info_Pods info))
    as [[-> _] | (err & pre & name & post & -> & _)]; apply Hall.
Qed.

Lemma fetched_requests (task : CheckPodTask) (ns : string) (names : list string) :
  fetched_pods (concat (requests_for task ns <$> names)) = names.
Proof.
  induction names as [|name rest IH]; [done|].
  rewrite fmap_cons. cbn [concat]. unfold fetched_pods in *. rewrite omap_app, IH.
  unfold requests_for. cbn [omap list_omap].
  destruct (Pods_Get (client task) ns name); [done|]. by case_decide.
Qed.

Lemma fetched_single_shot {P} (rt : Runtime P) (task : CheckPodTask) (info : ObjInfo) :
  fetched_pods (checkPods rt task info).2 `prefix_of` info_Pods info ∧
  ((checkPods rt task info).1 = None →
     fetched_pods (checkPods rt task info).2 = info_Pods info).
Proof.
  unfold checkPods.
  destruct (checkPods_range_spec rt task (info_Namespace info) (info_Pods info))
    as [[-> _] | (err & pre & name & post & -> & Hsplit & _)]; cbn [to_error fst snd];
    rewrite fetched_requests.
  - done.
  - split; [|discriminate]. exists post. by rewrite Hsplit, <- app_assoc.
Qed.

(** X13: with a zero timeout [Exec] only issues Gets of pods of the ObjInfo's
    namespace and Gets of nodes: no List, no informer, no deadline. The pods
    it fetches are, in order, an initial segment of [info.Pods], and all of
    [info.Pods] when it succeeds. *)
Theorem X13_Exec_single_shot {P} (rt : Runtime P) (task : CheckPodTask) (eng : Eng)
    (env : WatchEnv) (info : ObjInfo) :
  objMap eng !! RefTaskID (task_params task) = Some info →
  Timeout (task_params task) = 0%Z →
  Forall (single_shot_call (info_Namespace info)) (Exec rt task eng env).2 ∧
  fetched_pods (Exec rt task eng env).2 `prefix_of` info_Pods info ∧
  ((Exec rt task eng env).1 = None →
     fetched_pods (Exec rt task eng env).2 = info_Pods info).
Proof.
  intros Hreg Hto. unfold Exec, GetObjInfo. rewrite Hreg.
  case_decide as Hlen.
  - split; [done|]. split; [apply prefix_nil|].
    intros _. by destruct (info_Pods info).
  - rewrite decide_True by done.
    split; [apply requests_single_shot | apply fetched_single_shot].
Qed.

Lemma X13_Exec_single_shot_witness :
  Forall (single_shot_call "default")
    (Exec typed_runtime worker_role_task job_engine no_events).2 ∧
  fetched_pods (Exec typed_runtime worker_role_task job_engine no_events).2
    `prefix_of` info_Pods job_info ∧
  ((Exec typed_runtime worker_role_task job_engine no_events).1 = None →
     fetched_pods (Exec typed_runtime worker_role_task job_engine no_events).2 =
       info_Pods job_info).
Proof.
  apply (X13_Exec_single_shot typed_runtime worker_role_task job_engine no_events
           job_info); reflexivity.
Defined.

(** ** Watch mode, further *)

Section WatchMore.
Context {P : Type} (rt : Runtime P) (task : CheckPodTask) (info : ObjInfo).

(** What a call of [verifyPod] does to the remaining set: nothing, or the
    removal of the name of the delivered pod, whose labels passed. *)
Lemma verifyPod_effect (m m' : SyncMap) (obj : Obj) (sent : option (option error))
    (t : list Call) :
  verifyPod rt task m obj = (m', sent, t) →
  (m' = m ∧ ((sent = None ∧ t = []) ∨ ∃ err, sent = Some (Some err))) ∨
  (∃ pod, obj = ObjPod pod ∧ is_Some (m !! pod_Name pod) ∧
          m' = delete (pod_Name pod) m ∧ labels_ok task pod ∧
          ∀ err, sent ≠ Some (Some err)).
Proof.
  unfold verifyPod, SyncMap_Get, SyncMap_Delete. destruct obj as [pod | tyname].
  - destruct (m !! pod_Name pod) as [v|] eqn:Hin.
    + destruct (verifyLabels_spec rt task pod) as [[-> Hok] | (err & -> & _)].
      * intros Hrun. right. exists pod. split; [done|]. split; [by eexists|].
        revert Hrun. case_decide; intros [= <- <- <-]; done.
      * intros [= <- <- <-]. left. split; [done|]. right. by eexists.
    + intros [= <- <- <-]. left. split; [done|]. by left.
  - intros [= <- <- <-]. left. split; [done|]. right. by eexists.
Qed.

Lemma verifyPod_calls (m m' : SyncMap) (obj : Obj) (sent : option (option error))
    (t : list Call) :
  verifyPod rt task m obj = (m', sent, t) →
  Forall (watching_call (info_Namespace info)) t ∧ list_requests t = 0.
Proof.
  unfold verifyPod. destruct obj as [pod | tyname]; [|by intros [= _ _ <-]].
  destruct (SyncMap_Get m (pod_Name pod)); [|by intros [= _ _ <-]].
  assert (Forall (watching_call (info_Namespace info)) (labels_calls task pod) ∧
          list_requests (labels_calls task pod) = 0) as Hcalls.
  { unfold labels_calls. case_decide; [|done]. split; [by repeat constructor | done]. }
  destruct (verifyLabels_spec rt task pod) as [[-> _] | (err & -> & _)].
  - destruct (SyncMap_Delete m (pod_Name pod)). case_decide; by intros [= _ _ <-].
  - by intros [= _ _ <-].
Qed.

Lemma listed_tail (item : Pod) (rest : list Pod) :
  item :: rest ⊆ listed_pods task info →
  item ∈ listed_pods task info ∧ rest ⊆ listed_pods task info.
Proof. intros Hsub. split; [apply Hsub; left | intros x Hx; apply Hsub; by right]. Qed.

(** One step: the calls it makes, the List requests it leaves to make, and
    the names it removes from the remaining set. *)
Lemma watch_step_effect (st st' : WatchState) (ev : Event) (sent : option (option error))
    (t : list Call) :
  watch_step rt task info st ev = (st', sent, t) →
  lister_within task info st →
  lister_within task info st' ∧
  Forall (watching_call (info_Namespace info)) t ∧
  (list_requests t + lists_left st' ≤ lists_left st)%nat ∧
  ∀ name, is_Some (podMap st !! name) →
    is_Some (podMap st' !! name) ∨
    ∃ pod, (ev = EvHandler (ObjPod pod) ∨ pod ∈ listed_pods task info) ∧
           pod_Name pod = name ∧ labels_ok task pod.
Proof.
  assert (∀ m m' obj sent' t' name,
            verifyPod rt task m obj = (m', sent', t') → is_Some (m !! name) →
            is_Some (m' !! name) ∨
            ∃ pod, obj = ObjPod pod ∧ pod_Name pod = name ∧ labels_ok task pod) as Hgone.
  { intros m m' obj sent' t' name Hv Hname.
    destruct (verifyPod_effect _ _ _ _ _ Hv) as [[-> _] | (pod & -> & _ & -> & Hok & _)];
      [by left|].
    destruct (decide (pod_Name pod = name)) as [Heq | Hne]; [right; by exists pod|].
    left. by rewrite lookup_delete_ne. }
  unfold lister_within, lists_left. destruct ev as [obj|]; cbn [watch_step].
  - destruct (verifyPod rt task (podMap st) obj) as [[m' sent'] t'] eqn:Hv.
    intros [= <- <- <-] Hwithin. cbn [lister podMap].
    destruct (verifyPod_calls _ _ _ _ _ Hv) as [Hcalls ->].
    split; [done|]. split; [done|]. split; [done|].
    intros name Hname.
    destruct (Hgone _ _ _ _ _ name Hv Hname) as [? | (pod & -> & ? & ?)]; [by left|].
    right. exists pod. split; [by left | done].
  - unfold lister_step. destruct (lister st) as [|[|item rest]|] eqn:Hlister.
    + unfold listed_pods.
      destruct (Pods_List (client task) (info_Namespace info)) as [cause | items];
        intros [= <- <- <-] _; cbn [lister podMap];
        (split; [done|]); (split; [by repeat constructor|]); (split; [cbn; lia|]);
        intros name Hname; by left.
    + intros [= <- <- <-] _. cbn [lister podMap].
      split; [done|]. split; [done|]. split; [cbn; lia|]. intros name Hname. by left.
    + case_decide.
      * intros [= <- <- <-] _. cbn [lister podMap].
        split; [done|]. split; [done|]. split; [cbn; lia|]. intros name Hname. by left.
      * destruct (verifyPod rt task (podMap st) (ObjPod item)) as [[m' sent'] t'] eqn:Hv.
        intros [= <- <- <-] Hwithin. cbn [lister podMap].
        destruct (listed_tail _ _ Hwithin) as [Hitem Hrest].
        destruct (verifyPod_calls _ _ _ _ _ Hv) as [Hcalls ->].
        split; [done|]. split; [done|]. split; [cbn; lia|].
        intros name Hname.
        destruct (Hgone _ _ _ _ _ name Hv Hname) as [? | (pod & [= <-] & ? & ?)]; [by left|].
        right. exists item. split; [by right | done].
    + intros [= <- <- <-] _. rewrite Hlister.
      split; [done|]. split; [done|]. split; [cbn; lia|]. intros name Hname. by left.
Qed.

Lemma list_requests_app (t1 t2 : list Call) :
  list_requests (t1 ++ t2) = list_requests t1 + list_requests t2.
Proof. unfold list_requests. by rewrite List.filter_app, length_app. Qed.

(** A whole watch from the state [st]. *)
Lemma watch_select_effect (sched : list Event) (done : CtxDone) (st st' : WatchState)
    (r : option error) (t : list Call) :
  watch_select rt task info st sched done = (r, st', t) →
  lister_within task info st →
  Forall (watching_call (info_Namespace info)) t ∧
  (list_requests t ≤ lists_left st)%nat ∧
  podMap st' ⊆ podMap st ∧
  ∀ name, is_Some (podMap st !! name) →
    is_Some (podMap st' !! name) ∨
    ∃ pod, (pod ∈ handled_pods sched ∨ pod ∈ listed_pods task info) ∧
           pod_Name pod = name ∧ labels_ok task pod.
Proof.
  revert st t. induction sched as [|ev rest IH]; intros st t; cbn [watch_select].
  - intros [= <- <- <-] _. split; [done|]. split; [cbn; lia|]. split; [done|].
    intros name Hname. by left.
  - destruct (watch_step rt task info st ev) as [[st1 sent] t1] eqn:Hstep.
    intros Hrun Hwithin.
    destruct (watch_step_effect _ _ _ _ _ Hstep Hwithin) as (Hwithin1 & Hcalls1 & Hleft1 & Hgone1).
    pose proof (watch_step_shrinks rt task info _ _ _ _ _ Hstep) as Hshrink1.
    assert (∀ name, is_Some (podMap st !! name) →
              is_Some (podMap st1 !! name) ∨
              ∃ pod, (pod ∈ handled_pods (ev :: rest) ∨ pod ∈ listed_pods task info) ∧
                     pod_Name pod = name ∧ labels_ok task pod) as Hgone1'.
    { intros name Hname.
      destruct (Hgone1 name Hname) as [? | (pod & [-> | Hl] & ? & ?)]; [by left|..];
        right; exists pod; (split; [|done]); [left; cbn; left | by right]. }
    destruct sent as [v|].
    + injection Hrun as <- <- <-. split; [done|]. split; [lia|]. split; [done|]. done.
    + destruct (watch_select rt task info st1 rest done) as [[r' st2] t2] eqn:Hrest.
      injection Hrun as <- <- <-.
      destruct (IH _ _ Hrest Hwithin1) as (Hcalls2 & Hleft2 & Hshrink2 & Hgone2).
      split; [by apply Forall_app|]. split; [rewrite list_requests_app; lia|].
      split; [by etrans|].
      intros name Hname.
      destruct (Hgone1' name Hname) as [Hstill | ?]; [|by right].
      destruct (Hgone2 name Hstill) as [? | (pod & [Hh | Hl] & ? & ?)]; [by left|..];
        right; exists pod; (split; [|done]); [left | by right].
      cbn. destruct ev as [[]|]; try done. by right.
Qed.
End WatchMore.

(** X14: once [verifyPod] has handled a pod without reporting an error, the
    pod's name is no longer in the remaining set, the other names are as
    before, and a further delivery of a pod of that name (a redundant Update
    event, or the same pod from the List) changes nothing, sends nothing and
    issues no request. *)
Theorem X14_verifyPod_redelivery {P} (rt : Runtime P) (task : CheckPodTask)
    (m m' : SyncMap) (pod : Pod) (sent : option (option error)) (t : list Call) :
  verifyPod rt task m (ObjPod pod) = (m', sent, t) →
  (∀ err, sent ≠ Some (Some err)) →
  m' !! pod_Name pod = None ∧
  (∀ other, other ≠ pod_Name pod → m' !! other = m !! other) ∧
  ∀ again, pod_Name again = pod_Name pod →
    verifyPod rt task m' (ObjPod again) = (m', None, []).
Proof.
  intros Hrun Hquiet.
  assert (m' !! pod_Name pod = None ∧
          ∀ other, other ≠ pod_Name pod → m' !! other = m !! other) as [Hgone Hrest].
  { destruct (verifyPod_effect rt task _ _ _ _ _ Hrun)
      as [[-> [[-> ->] | [err ->]]] | (pod' & [= <-] & _ & -> & _)].
    - split; [|done]. revert Hrun. unfold verifyPod, SyncMap_Get.
      destruct (m !! pod_Name pod) as [v|] eqn:Hin; [|done].
      destruct (verifyLabels rt task pod) as [[[] | ?] ?]; [|discriminate].
      unfold SyncMap_Delete. case_decide; [discriminate|].
      intros [= Hdel _]. rewrite <- Hdel in Hin. by rewrite lookup_delete_eq in Hin.
    - by destruct (Hquiet err).
    - split; [apply lookup_delete_eq|]. intros other Hne. by rewrite lookup_delete_ne. }
  split; [done|]. split; [done|].
  intros again Hname. unfold verifyPod, SyncMap_Get. by rewrite Hname, Hgone.
Qed.

Lemma X14_verifyPod_redelivery_witness :
  (∅ : SyncMap) !! "j0-test-0" = None ∧
  (∀ other, other ≠ "j0-test-0" →
     (∅ : SyncMap) !! other = ({["j0-test-0" := true]} : SyncMap) !! other) ∧
  ∀ again, pod_Name again = "j0-test-0" →
    verifyPod typed_runtime (completed_task pending_cluster) ∅ (ObjPod again) = (∅, None, []).
Proof.
  apply (X14_verifyPod_redelivery typed_runtime (completed_task pending_cluster)
           {["j0-test-0" := true]} ∅ (pending_pod "j0-test-0") (Some None) []).
  - by vm_compute.
  - discriminate.
Defined.

(** X15: the remaining set of a watch starts as the set of the expected pod
    names, a name listed twice counting once, and only shrinks: whatever the
    events, the names left when [watchPods] returns are expected pod names. *)
Theorem X15_remaining_set {P} (rt : Runtime P) (task : CheckPodTask) (info : ObjInfo)
    (env : WatchEnv) :
  dom (initial_podMap info) = list_to_set (info_Pods info) ∧
  podMap (watchPods_run rt task info env).1.2 ⊆ initial_podMap info ∧
  ∀ name, is_Some (podMap (watchPods_run rt task info env).1.2 !! name) →
          name ∈ info_Pods info.
Proof.
  assert (podMap (watchPods_run rt task info env).1.2 ⊆ initial_podMap info) as Hsub.
  { unfold watchPods_run. destruct (add_handler env); [done|].
    destruct (watch_select rt task info (initial_state info) (schedule env) (ctx_done env))
      as [[r st] t] eqn:Hrun.
    by destruct (watch_select_effect rt task info _ _ _ _ _ _ Hrun I) as (_ & _ & ? & _). }
  split; [|split; [done|]].
  - apply set_eq. intros name.
    by rewrite elem_of_dom, initial_podMap_lookup, elem_of_list_to_set.
  - intros name [v Hv]. apply initial_podMap_lookup. exists v.
    by apply (lookup_weaken _ _ _ _ Hv Hsub).
Qed.

(** X16: a watch succeeds only if every expected pod was observed: for each
    name of [info.Pods] some pod of that name was handed to a handler or was
    an item of the initial List, and its host node, if it runs and labels
    are required, could be fetched and agrees on every required label. *)
Theorem X16_watch_success_observed {P} (rt : Runtime P) (task : CheckPodTask)
    (info : ObjInfo) (env : WatchEnv) (name : string) :
  (watchPods rt task info env).1 = None →
  name ∈ info_Pods info →
  ∃ pod, pod ∈ observed_pods task info env ∧ pod_Name pod = name ∧ labels_ok task pod.
Proof.
  unfold watchPods.
  destruct (watchPods_run rt task info env) as [[r st] t] eqn:Hrun. cbn. intros -> Hname.
  pose proof (watchPods_run_exit rt task info env _ _ _ Hrun) as Hexit.
  inversion Hexit as [| st' Hadd Hfirst Hempty | | | |]; subst.
  unfold watchPods_run in Hrun. rewrite Hadd in Hrun.
  destruct (watch_select rt task info (initial_state info) (schedule env) (ctx_done env))
    as [[r' st''] t'] eqn:Hsel.
  injection Hrun as -> -> _.
  destruct (watch_select_effect rt task info _ _ _ _ _ _ Hsel I) as (_ & _ & _ & Hgone).
  destruct (Hgone name) as [[v Hv] | (pod & Hin & Hn & Hok)].
  - by apply initial_podMap_lookup.
  - by rewrite Hempty, lookup_empty in Hv.
  - exists pod. split; [|done]. unfold observed_pods. rewrite elem_of_app. tauto.
Qed.

Lemma X16_watch_success_observed_witness :
  ∃ pod, pod ∈ observed_pods (completed_task pending_cluster) job_info pending_events ∧
         pod_Name pod = "j0-test-1" ∧ labels_ok (completed_task pending_cluster) pod.
Proof.
  apply (X16_watch_success_observed typed_runtime (completed_task pending_cluster)
           job_info pending_events "j0-test-1").
  - by vm_compute.
  - apply list_elem_of_further, list_elem_of_here.
Defined.

(** X17: the calls of [watchPods], on every path: the deadline of the task's
    timeout, the informer factory with a resync of 30 s in the ObjInfo's
    namespace and the registration of the handlers come first; the shutdown
    of the factory and then the cancellation of the deadline come last. In
    between, nothing if the registration failed; otherwise the start of the
    informer, then only Gets of nodes and at most one List of the pods of
    that namespace, and never a Get of a pod. *)
Theorem X17_watchPods_calls {P} (rt : Runtime P) (task : CheckPodTask) (info : ObjInfo)
    (env : WatchEnv) :
  ∃ middle,
    (watchPods rt task info env).2 =
      [CallWithTimeout (Timeout (task_params task));
       CallNewInformerFactory (30 * Second) (info_Namespace info);
       CallAddEventHandler] ++ middle ++ [CallFactoryShutdown; CallCancel] ∧
    match add_handler env with
    | Some _ => middle = []
    | None =>
        ∃ t, middle = CallInformerRun :: t ∧
             Forall (watching_call (info_Namespace info)) t ∧
             (list_requests t ≤ 1)%nat
    end.
Proof.
  unfold watchPods, watchPods_run. destruct (add_handler env) as [cause|].
  - by exists [].
  - destruct (watch_select rt task info (initial_state info) (schedule env) (ctx_done env))
      as [[r st] t] eqn:Hsel.
    destruct (watch_select_effect rt task info _ _ _ _ _ _ Hsel I) as (Hcalls & Hleft & _).
    exists (CallInformerRun :: t). split; [done|]. by exists t.
Qed.

(** ** Execution of a CheckPod and of a task list *)

Lemma pod_failure_not_missing (task : CheckPodTask) (ns name taskID : string) :
  ¬ pod_failure task ns name (ErrMissingID taskID).
Proof. inversion 1. Qed.

Lemma Exec_missing {P} (rt : Runtime P) (task : CheckPodTask) (eng : Eng) (env : WatchEnv)
    (taskID : string) :
  (Exec rt task eng env).1 = Some (ErrMissingID taskID) ↔
  taskID = RefTaskID (task_params task) ∧
  objMap eng !! RefTaskID (task_params task) = None.
Proof.
  unfold Exec, GetObjInfo.
  destruct (objMap eng !! RefTaskID (task_params task)) as [info|] eqn:Hreg.
  - split; [|by intros [_ ?]]. case_decide; [discriminate|]. case_decide.
    + unfold checkPods.
      destruct (checkPods_range rt task (info_Namespace info) (info_Pods info))
        as [[[] | err] t] eqn:Hrun; [discriminate|].
      cbn. intros [= ->].
      destruct (checkPods_range_failure rt task _ _ _ _ Hrun) as (? & ? & ? & _ & _ & Hfail).
      by destruct (pod_failure_not_missing _ _ _ _ Hfail).
    + unfold watchPods.
      destruct (watchPods_run rt task info env) as [[r st] t] eqn:Hrun. cbn. intros ->.
      pose proof (watchPods_run_exit rt task info env _ _ _ Hrun) as Hexit.
      inversion Hexit as [| | st' err Hadd Hfirst Hver | | |]; subst. done.
  - cbn. split; [by intros [= <-] | by intros [-> _]].
Qed.

(** X18: [Exec] of a CheckPod fails with the missing-ID error exactly when the
    registry does not hold the task's [refTaskId], which is then the
    identifier the error names; in that case it issues no request. No failure
    of a verification or of a watch is reported as a missing ID. *)
Theorem X18_Exec_missing_ID {P} (rt : Runtime P) (task : CheckPodTask) (eng : Eng)
    (env : WatchEnv) :
  (∀ taskID, (Exec rt task eng env).1 = Some (ErrMissingID taskID) ↔
     taskID = RefTaskID (task_params task) ∧
     objMap eng !! RefTaskID (task_params task) = None) ∧
  (objMap eng !! RefTaskID (task_params task) = None → (Exec rt task eng env).2 = []).
Proof.
  split; [intros taskID; apply Exec_missing|].
  intros Hreg. unfold Exec, GetObjInfo. by rewrite Hreg.
Qed.

(** X19: a CheckPod task that the factory returned never fails with the
    missing-ID error when it is executed on that registry or on a larger
    one: the check of the factory covers the lookup of [Exec]. *)
Theorem X19_Exec_after_GetTask {P} (rt : Runtime P) (lib : TaskLib P) (eng eng' : Eng)
    (cfg : Task P) (task : CheckPodTask) (env : WatchEnv) (taskID : string) :
  GetTask rt lib eng cfg = Ok (RCheckPod task) →
  objMap eng ⊆ objMap eng' →
  (Exec rt task eng' env).1 ≠ Some (ErrMissingID taskID).
Proof.
  intros Hget Hsub Hmissing. apply Exec_missing in Hmissing as [_ Hnone].
  destruct (GetTask_referenced rt lib eng cfg _ _ Hget eq_refl) as [info Hinfo].
  by rewrite (lookup_weaken _ _ _ _ Hinfo Hsub) in Hnone.
Qed.

Lemma X19_Exec_after_GetTask_witness :
  (Exec typed_runtime (completed_task running_cluster) job_engine no_events).1 ≠
    Some (ErrMissingID "job").
Proof.
  apply (X19_Exec_after_GetTask typed_runtime stub_lib job_engine job_engine check_status);
    [by vm_compute | done].
Defined.

(** X20: running a CheckPod descriptor never changes the engine, whether the
    construction fails, the check fails or it succeeds: the task only reads
    the registry. *)
Theorem X20_RunTask_CheckPod_reads {P} (rt : Runtime P) (lib : TaskLib P)
    (env_of : BaseTask → WatchEnv) (eng : Eng) (cfg : Task P) :
  cfg_Type cfg = TaskCheckPod →
  (RunTask rt lib env_of eng cfg).2 = eng.
Proof.
  intros Htype. unfold RunTask, execRunnable.
  destruct (GetTask rt lib eng cfg) as [r | err] eqn:Hget; [|done].
  pose proof (GetTask_kind_of rt lib eng cfg r Hget) as Hkind. rewrite Htype in Hkind.
  by destruct r.
Qed.

Lemma X20_RunTask_CheckPod_reads_witness :
  (RunTask typed_runtime stub_lib (λ _, pending_events) job_engine check_status).2 = job_engine.
Proof.
  apply (X20_RunTask_CheckPod_reads typed_runtime stub_lib). reflexivity.
Defined.

Section DriverMore.
Context {P E : Type} `{!Engine P E}.

Lemma Run_range_app (eng : E) (l1 l2 : list (Task P)) :
  Run_range eng (l1 ++ l2) =
    match Run_range eng l1 with
    | (Some err, eng') => (Some err, eng')
    | (None, eng') => Run_range eng' l2
    end.
Proof.
  revert eng. induction l1 as [|cfg rest IH]; intros eng; [done|].
  cbn [Run_range app]. destruct (Engine_RunTask eng cfg) as [[err|] eng']; [done|]. apply IH.
Qed.
End DriverMore.

(** X21: the loop of [Run] over a list is the loop over a first part
    followed, if no task of it fails, by the loop over the rest from the
    engine the first part left. So the tasks listed after one that fails
    play no role: a run whose task list fails returns the same, and leaves
    the same engine, with any tasks appended. *)
Theorem X21_Run_app {P E} `{!Engine P E} (eng : E) :
  (∀ l1 l2,
     Run_range eng (l1 ++ l2) =
       match Run_range eng l1 with
       | (Some err, eng') => (Some err, eng')
       | (None, eng') => Run_range eng' l2
       end) ∧
  (∀ (tc tc' : TaskConfig P) post err,
     (Run_range eng (cfg_Tasks tc)).1 = Some err →
     cfg_Tasks tc' = cfg_Tasks tc ++ post →
     Run eng tc' = Run eng tc).
Proof.
  split; [apply Run_range_app|].
  intros tc tc' post err Hfail Htasks. unfold Run. rewrite Htasks, Run_range_app.
  by destruct (Run_range eng (cfg_Tasks tc)) as [[err'|] eng'].
Qed.

(** X22: for the engine [Eng], whose reset does nothing, [Run] returns what
    its loop returns: nil exactly when every task of the list is constructed
    and executed without error, and otherwise the error of the first task
    that fails, with the engine as that task left it. *)
Theorem X22_Run_Eng {P} (rt : Runtime P) (lib : TaskLib P) (env_of : BaseTask → WatchEnv)
    (eng : Eng) (tc : TaskConfig P) :
  let engine := Eng_Engine rt lib env_of in
  Run eng tc = Run_range eng (cfg_Tasks tc) ∧
  ((Run eng tc).1 = None ↔ ∃ eng', all_succeed eng (cfg_Tasks tc) eng') ∧
  (∀ err, (Run eng tc).1 = Some err →
     ∃ pre cfg post eng1,
       cfg_Tasks tc = pre ++ cfg :: post ∧ all_succeed eng pre eng1 ∧
       RunTask rt lib env_of eng1 cfg = (Some err, (Run eng tc).2)).
Proof.
  intros engine.
  assert (Run eng tc = Run_range eng (cfg_Tasks tc)) as Hrun.
  { unfold Run. destruct (Run_range eng (cfg_Tasks tc)) as [[err|] eng']; done. }
  rewrite Hrun. split; [done|].
  destruct (Run_range_spec (cfg_Tasks tc) eng [])
    as [(eng1 & Hall & -> & _)
       | (pre & bad & post & eng1 & errExec & eng2 & Htasks & Hall & Hbad & -> & _)]; cbn.
  - split; [|discriminate]. split; [by exists eng1 | done].
  - split.
    + split; [discriminate|]. intros [eng' Hall']. exfalso.
      clear -Htasks Hall Hall' Hbad. rewrite Htasks in Hall'. clear Htasks.
      revert eng' Hall'. induction Hall as [e | e c e' rest e'' Hc _ IH]; intros eng' Hall'.
      * inversion Hall' as [| ? ? ? ? ? Hc' _]; subst. congruence.
      * inversion Hall' as [| ? ? ? ? ? Hc' Hrest]; subst.
        rewrite Hc in Hc'. injection Hc' as <-. by eapply IH.
    + intros err [= <-]. by exists pre, bad, post, eng1.
Qed.

Section Convergence.
Context {P : Type} (rt : Runtime P) (task : CheckPodTask) (info : ObjInfo).

Lemma verifyPod_removes (m : SyncMap) (pod : Pod) :
  is_Some (m !! pod_Name pod) →
  labels_ok task pod →
  verifyPod rt task m (ObjPod pod) =
    (delete (pod_Name pod) m,
     if decide (size (delete (pod_Name pod) m) = 0) then Some None else None,
     labels_calls task pod).
Proof.
  intros [v Hin] Hok. unfold verifyPod, SyncMap_Get, SyncMap_Delete. rewrite Hin.
  destruct (verifyLabels_spec rt task pod) as [[-> _] | (err & _ & Hbad)]; [|done].
  by case_decide.
Qed.

(** Handler calls for pods whose names are exactly the remaining ones empty
    the remaining set, and the last of them sends nil. *)
Lemma watch_select_handled (pods : list Pod) (more : list Event) (done : CtxDone)
    (st : WatchState) :
  pods ≠ [] →
  NoDup (pod_Name <$> pods) →
  dom (podMap st) = list_to_set (pod_Name <$> pods) →
  Forall (labels_ok task) pods →
  ∃ st' t,
    watch_select rt task info st ((EvHandler ∘ ObjPod <$> pods) ++ more) done = (None, st', t).
Proof.
  revert st. induction pods as [|pod rest IH]; intros st Hne Hnodup Hdom Hok; [done|].
  apply Forall_cons in Hok as [Hok Hoks].
  rewrite fmap_cons in Hnodup, Hdom. apply NoDup_cons in Hnodup as [Hfresh Hnodup].
  assert (is_Some (podMap st !! pod_Name pod)) as Hin.
  { apply elem_of_dom. rewrite Hdom, elem_of_list_to_set. left. }
  assert (dom (delete (pod_Name pod) (podMap st)) =
            (list_to_set (pod_Name <$> rest) : gset string)) as Hdom'.
  { rewrite dom_delete_L, Hdom. apply set_eq. intros name.
    rewrite elem_of_difference, !elem_of_list_to_set, elem_of_cons, elem_of_singleton.
    split; [tauto|]. intros Hname. split; [by right|]. by intros ->. }
  rewrite fmap_cons. cbn [app watch_select watch_step compose].
  rewrite (verifyPod_removes _ _ Hin Hok).
  destruct (decide (rest = [])) as [-> | Hrest].
  - apply dom_empty_inv_L in Hdom'. rewrite Hdom'.
    rewrite decide_True by apply map_size_empty. by eexists _, _.
  - rewrite decide_False.
    2:{ rewrite map_size_empty_iff. intros Hempty.
        rewrite Hempty, dom_empty_L in Hdom'. destruct rest as [|next rest']; [done|].
        assert (pod_Name next ∈ (∅ : gset string)) as Habs
          by (rewrite Hdom', elem_of_list_to_set; left).
        by apply not_elem_of_empty in Habs. }
    destruct (IH {| podMap := delete (pod_Name pod) (podMap st); lister := lister st |})
      as (st' & t & Hrun); [done..|].
    rewrite Hrun. by eexists _, _.
Qed.
End Convergence.

(** X23: a watch converges once the informer has delivered the expected
    pods: when the handlers are registered and the first events hand over,
    in any order, one pod for each expected name, each passing the label
    verification, then [watchPods] succeeds, whatever events follow and
    whether the deadline passes or the context is canceled afterwards. *)
Theorem X23_watch_converges {P} (rt : Runtime P) (task : CheckPodTask) (info : ObjInfo)
    (env : WatchEnv) (pods : list Pod) (more : list Event) :
  add_handler env = None →
  schedule env = (EvHandler ∘ ObjPod <$> pods) ++ more →
  pods ≠ [] →
  NoDup (pod_Name <$> pods) →
  (∀ name, name ∈ info_Pods info ↔ name ∈ pod_Name <$> pods) →
  Forall (labels_ok task) pods →
  (watchPods rt task info env).1 = None.
Proof.
  intros Hadd Hsched Hne Hnodup Hnames Hok.
  unfold watchPods, watchPods_run. rewrite Hadd, Hsched.
  destruct (watch_select_handled rt task info pods more (ctx_done env) (initial_state info))
    as (st' & t & ->); [done | done | | done | done].
  cbn [podMap initial_state]. apply set_eq. intros name.
  by rewrite elem_of_dom, initial_podMap_lookup, elem_of_list_to_set.
Qed.

Lemma X23_watch_converges_witness :
  (watchPods typed_runtime (completed_task pending_cluster) job_info
     {| add_handler := None;
        schedule := [EvHandler (ObjPod (mkPod "j0-test-1" "Completed" "n1"));
                     EvHandler (ObjPod (mkPod "j0-test-0" "Completed" "n1"));
                     EvListStep];
        ctx_done := Canceled |}).1 = None.
Proof.
  apply (X23_watch_converges typed_runtime (completed_task pending_cluster) job_info _
           [mkPod "j0-test-1" "Completed" "n1"; mkPod "j0-test-0" "Completed" "n1"]
           [EvListStep]).
  - reflexivity.
  - reflexivity.
  - discriminate.
  - cbn. apply NoDup_cons. split; [|apply NoDup_singleton].
    rewrite list_elem_of_singleton. discriminate.
  - intros name. cbn. rewrite !elem_of_cons, !elem_of_nil. tauto.
  - apply Forall_forall. intros pod _ [Hsize _]. by vm_compute in Hsize.
Defined.
